(** * Authorization-token storage (package [token], file storage_auth.go)

    A shallow embedding of the storage layer that keeps Authorization
    records in two buckets of a transactional key-value store: the primary
    bucket (encoded identifier -> serialized record) and the token index
    (token -> encoded identifier).

    The Go code is glue over collaborators that live outside the package:
    the key-value store ([kv.Tx], [kv.Bucket], [kv.Cursor]), the JSON
    libraries (encoding/json, buger/jsonparser, pkg/jsonparser), the
    identifier type ([influxdb.ID]) and the identifier generator.  The store
    is given a small executable model with injectable failures; the other
    collaborators are the fields of the class [Env], and the few facts the
    proofs need about them are stated as explicit laws. *)

From Stdlib Require Import String Ascii List NArith ZArith Bool Sorted Lia.
From Stdlib Require Import OrderedTypeEx.
Import ListNotations.
Open Scope string_scope.

(** ** Basic data *)

(** [[]byte].  The code converts freely between [string] and [[]byte]
    ([authIndexKey], [string(got)]); both are sequences of bytes, so one
    type serves for both and the conversions are the identity. *)
Definition bytes := string.

(** [influxdb.ID] is a 64-bit unsigned integer; no arithmetic is done on it. *)
Definition influxdb_ID := N.

(** [time.Time], as an instant. *)
Definition Time := Z.

(** [influxdb.Status] is a string type; its two constants are declared
    outside this file. *)
Definition influxdb_Status := string.
Definition Active : influxdb_Status := "active".
Definition Inactive : influxdb_Status := "inactive".

(** Modelled from the spec: [influxdb.Permission] is declared outside this
    package; a permission entry is an opaque payload for this layer. *)
Record Permission := mkPermission {
  Action : string;
  ResourceType : string;
  ResourceID : option influxdb_ID;
  ResourceOrgID : option influxdb_ID
}.

Definition zeroPermission : Permission := mkPermission "" "" None None.

(** Modelled from the spec: [influxdb.Authorization] is declared outside
    this package.  Its fields are those of the spec's data model, under the
    names the code uses: identifier, token, status, description,
    organization, user, permission set, creation and last-update times. *)
Record Authorization := mkAuthorization {
  ID : influxdb_ID;
  Token : string;
  Status : influxdb_Status;
  Description : string;
  OrgID : influxdb_ID;
  UserID : influxdb_ID;
  Permissions : list Permission;
  CreatedAt : Time;
  UpdatedAt : Time
}.

Definition with_ID (a : Authorization) (id : influxdb_ID) : Authorization :=
  mkAuthorization id (Token a) (Status a) (Description a) (OrgID a) (UserID a)
                  (Permissions a) (CreatedAt a) (UpdatedAt a).

Definition with_Status (a : Authorization) (s : influxdb_Status) : Authorization :=
  mkAuthorization (ID a) (Token a) s (Description a) (OrgID a) (UserID a)
                  (Permissions a) (CreatedAt a) (UpdatedAt a).

Definition with_Description (a : Authorization) (d : string) : Authorization :=
  mkAuthorization (ID a) (Token a) (Status a) d (OrgID a) (UserID a)
                  (Permissions a) (CreatedAt a) (UpdatedAt a).

(** [a.SetUpdatedAt(now)] *)
Definition SetUpdatedAt (a : Authorization) (now : Time) : Authorization :=
  mkAuthorization (ID a) (Token a) (Status a) (Description a) (OrgID a) (UserID a)
                  (Permissions a) (CreatedAt a) now.

(** The zero value of the struct. *)
Definition zeroAuthorization : Authorization :=
  mkAuthorization 0%N "" "" "" 0%N 0%N [] 0%Z 0%Z.

(** [&influxdb.Authorization{Permissions: make([]influxdb.Permission, 64)}] *)
Definition preallocated : Authorization :=
  mkAuthorization 0%N "" "" "" 0%N 0%N (repeat zeroPermission 64) 0%Z 0%Z.

Module AuthorizationFilter.
(** Modelled from the spec: [influxdb.AuthorizationFilter], declared
    outside this package; every field is an optional pointer. *)
Record t := mk {
  ID : option influxdb_ID;
  Token : option string;
  OrgID : option influxdb_ID;
  UserID : option influxdb_ID
}.
End AuthorizationFilter.

Module AuthorizationUpdate.
(** Modelled from the spec: [influxdb.AuthorizationUpdate], declared
    outside this package; optional status and optional description. *)
Record t := mk {
  Status : option influxdb_Status;
  Description : option string
}.
End AuthorizationUpdate.

(** ** Errors *)

Inductive ErrCode := EInvalid | EInternal | ENotFound.

(** Modelled from the spec: the error values are declared outside this
    file.  The named errors and error constructors are kept symbolic;
    [InfluxdbMsg] is a literal
    [&influxdb.Error{Code: c, Msg: m}] and [InfluxdbWrap] a literal
    [&influxdb.Error{Code: c, Err: err}] (the code may be left out);
    [ExternalError] is any error value produced by a collaborator. *)
Inductive error :=
  | ExternalError (msg : string)
  | ErrKeyNotFound                          (* kv.ErrKeyNotFound *)
  | NotUniqueError                          (* kv.NotUniqueError *)
  | UnexpectedIndexError (err : error)      (* kv.UnexpectedIndexError(err) *)
  | ErrUnableToCreateToken                  (* influxdb.ErrUnableToCreateToken *)
  | ErrInvalidAuthID
  | ErrAuthNotFound
  | ErrInvalidAuthIDError (err : error)
  | ErrInternalServiceError (err : error)
  | UnexpectedAuthIndexError (err : error)
  | InfluxdbMsg (code : ErrCode) (msg : string)
  | InfluxdbWrap (code : option ErrCode) (err : error).

Inductive result (A : Type) :=
  | Ok (a : A)
  | Err (e : error).
Arguments Ok {A} a.
Arguments Err {A} e.

(** [kv.IsNotFound] *)
Definition IsNotFound (err : error) : bool :=
  match err with
  | ErrKeyNotFound => true
  | _ => false
  end.

(** ** The transactional key-value store

    The store behind [kv.Tx] / [kv.Bucket] / [kv.Cursor] is not part of
    this package.  Per the spec it offers named buckets, byte-key/byte-value
    Put/Get/Delete, a not-found signal distinct from other errors, and a
    forward cursor in ascending key order that may use a predicate hint to
    skip entries. *)

(** The two bucket names the code uses (declared in another file). *)
Inductive BucketName := authBucket | authIndex.

(** Modelled from the spec: failures of the store.  Every capability can
    fail with an error of the store's own (an [ExternalError], never the
    not-found signal), so the error paths of the code can be exercised. *)
Record Faults := mkFaults {
  failBucket : BucketName -> option string;            (* tx.Bucket(name) *)
  failGet : BucketName -> bytes -> option string;      (* b.Get(key) *)
  failPut : BucketName -> bytes -> option string;      (* b.Put(key, _) *)
  failDelete : BucketName -> bytes -> option string;   (* b.Delete(key) *)
  failCursor : BucketName -> option string             (* b.Cursor(...) *)
}.

Definition noFaults : Faults :=
  mkFaults (fun _ => None) (fun _ _ => None) (fun _ _ => None)
           (fun _ _ => None) (fun _ => None).

(** Modelled from the spec: the state a transaction sees.  A bucket is an
    association list kept in ascending key order. *)
Record Tx := mkTx {
  auths : list (bytes * bytes);     (* contents of the primary bucket *)
  index : list (bytes * bytes);     (* contents of the token index *)
  faults : Faults;
  usesHints : bool                  (* whether cursors skip on the hint *)
}.

Definition emptyTx : Tx := mkTx [] [] noFaults false.

Definition contents (tx : Tx) (b : BucketName) : list (bytes * bytes) :=
  match b with
  | authBucket => auths tx
  | authIndex => index tx
  end.

Definition with_contents (tx : Tx) (b : BucketName) (l : list (bytes * bytes)) : Tx :=
  match b with
  | authBucket => mkTx l (index tx) (faults tx) (usesHints tx)
  | authIndex => mkTx (auths tx) l (faults tx) (usesHints tx)
  end.

Fixpoint lookup (k : bytes) (l : list (bytes * bytes)) : option bytes :=
  match l with
  | [] => None
  | (k', v) :: rest => if String.eqb k k' then Some v else lookup k rest
  end.

(** Insertion that keeps ascending key order and replaces an existing key. *)
Fixpoint insert (k v : bytes) (l : list (bytes * bytes)) : list (bytes * bytes) :=
  match l with
  | [] => [(k, v)]
  | (k', v') :: rest =>
      match String.compare k k' with
      | Lt => (k, v) :: (k', v') :: rest
      | Eq => (k, v) :: rest
      | Gt => (k', v') :: insert k v rest
      end
  end.

Fixpoint remove (k : bytes) (l : list (bytes * bytes)) : list (bytes * bytes) :=
  match l with
  | [] => []
  | (k', v') :: rest =>
      if String.eqb k k' then remove k rest else (k', v') :: remove k rest
  end.

(** Modelled from the spec: [tx.Bucket(name)], a handle on the bucket or
    the store's error. *)
Definition tx_Bucket (tx : Tx) (name : BucketName) : result BucketName :=
  match failBucket (faults tx) name with
  | Some msg => Err (ExternalError msg)
  | None => Ok name
  end.

(** Modelled from the spec: [b.Get(key)], with the not-found signal for a
    key the bucket does not hold. *)
Definition bucket_Get (tx : Tx) (b : BucketName) (key : bytes) : result bytes :=
  match failGet (faults tx) b key with
  | Some msg => Err (ExternalError msg)
  | None =>
      match lookup key (contents tx b) with
      | Some v => Ok v
      | None => Err ErrKeyNotFound
      end
  end.

(** Modelled from the spec: [b.Put(key, value)]; a failed Put writes
    nothing. *)
Definition bucket_Put (tx : Tx) (b : BucketName) (key value : bytes) : result Tx :=
  match failPut (faults tx) b key with
  | Some msg => Err (ExternalError msg)
  | None => Ok (with_contents tx b (insert key value (contents tx b)))
  end.

(** Modelled from the spec: [b.Delete(key)]; deleting an absent key is
    not an error. *)
Definition bucket_Delete (tx : Tx) (b : BucketName) (key : bytes) : result Tx :=
  match failDelete (faults tx) b key with
  | Some msg => Err (ExternalError msg)
  | None => Ok (with_contents tx b (remove key (contents tx b)))
  end.

(** [kv.CursorPredicateFunc] *)
Definition CursorPredicateFunc := bytes -> bytes -> bool.

(** Modelled from the spec: [b.Cursor(hints...)], as the entries the
    cursor will yield from [First] through successive [Next] calls.  With a hint the store may skip the
    entries the predicate rejects; without one it yields every entry. *)
Definition bucket_Cursor (tx : Tx) (b : BucketName) (hint : option CursorPredicateFunc)
  : result (list (bytes * bytes)) :=
  match failCursor (faults tx) b with
  | Some msg => Err (ExternalError msg)
  | None =>
      match hint with
      | Some pred =>
          if usesHints tx
          then Ok (filter (fun kv => pred (fst kv) (snd kv)) (contents tx b))
          else Ok (contents tx b)
      | None => Ok (contents tx b)
      end
  end.

(** ** The other collaborators *)

(** The capabilities the code consumes from outside the package, taken as
    parameters. *)
Class Env := mkEnv {
  (** [influxdb.ID]: [Valid], [Encode], [Decode] *)
  ID_Valid : influxdb_ID -> bool;
  ID_Encode : influxdb_ID -> result bytes;
  ID_Decode : bytes -> result influxdb_ID;
  (** encoding/json on Authorization values; [json_Unmarshal data target]
      is the call on a non-nil pointer whose pointee is [target], and
      [json_checkValid] the syntax check that Unmarshal runs first *)
  json_Marshal : Authorization -> result bytes;
  json_Unmarshal : bytes -> Authorization -> result Authorization;
  json_checkValid : bytes -> option error;
  (** buger/jsonparser [Get] (value bytes only) and pkg/jsonparser *)
  jsonparser_Get : bytes -> string -> result bytes;
  jsonp_GetID : bytes -> string -> result influxdb_ID;
  jsonp_GetOptionalID : bytes -> string -> influxdb_ID * bool * option error;
  (** [s.generateSafeID(ctx, tx, bucket)] *)
  generateSafeID : Tx -> BucketName -> result influxdb_ID;
  (** [time.Now()] *)
  time_Now : Time
}.

(** ** The code of storage_auth.go *)

Section Store.
Context {E : Env}.

(** encoding/json documents that Unmarshal returns an InvalidUnmarshalError
    when its target is a nil pointer. *)
Definition InvalidUnmarshalError : error :=
  ExternalError "json: Unmarshal(nil *influxdb.Authorization)".

(** The error of [json.Unmarshal(b, nil)]: the syntax error of [b] if it
    has one, the InvalidUnmarshalError otherwise.  Nothing is decoded. *)
Definition nilTargetError (b : bytes) : error :=
  match json_checkValid b with
  | Some err => err
  | None => InvalidUnmarshalError
  end.

(** [json.Unmarshal(b, a)] for a pointer [a] that may be nil ([None]). *)
Definition Unmarshal (b : bytes) (a : option Authorization) : result Authorization :=
  match a with
  | None => Err (nilTargetError b)
  | Some target => json_Unmarshal b target
  end.

Definition authIndexKey (n : string) : bytes := n.

Definition authIndexBucket (tx : Tx) : result BucketName :=
  match tx_Bucket tx authIndex with
  | Err err => Err (UnexpectedAuthIndexError err)
  | Ok b => Ok b
  end.

(** [initializeAuths]: both buckets must be obtainable. *)
Definition initializeAuths (tx : Tx) : option error :=
  match tx_Bucket tx authBucket with
  | Err err => Some err
  | Ok _ =>
      match authIndexBucket tx with
      | Err err => Some err
      | Ok _ => None
      end
  end.

(** [encodeAuthorization] writes through its pointer argument: the second
    component is the record as the caller sees it afterwards. *)
Definition encodeAuthorization (a : Authorization) : result bytes * Authorization :=
  if String.eqb (Status a) Active || String.eqb (Status a) Inactive then
    (json_Marshal a, a)
  else if String.eqb (Status a) "" then
    let a := with_Status a Active in
    (json_Marshal a, a)
  else
    (Err (InfluxdbMsg EInvalid "unknown authorization status"), a).

(** [decodeAuthorization(b, a)]: the record [a] points to afterwards, or
    the error. *)
Definition decodeAuthorization (b : bytes) (a : option Authorization) : result Authorization :=
  match Unmarshal b a with
  | Err err => Err err
  | Ok a =>
      if String.eqb (Status a) "" then Ok (with_Status a Active) else Ok a
  end.

Definition unique (tx : Tx) (indexBucket : BucketName) (indexKey : bytes) : option error :=
  match tx_Bucket tx indexBucket with
  | Err err => Some (UnexpectedIndexError err)
  | Ok bucket =>
      match bucket_Get tx bucket indexKey with
      | Err err =>
          if IsNotFound err then None
          else Some (UnexpectedIndexError err)
      | Ok _ => Some NotUniqueError
      end
  end.

Definition uniqueAuthToken (tx : Tx) (a : Authorization) : option error :=
  match unique tx authIndex (authIndexKey (Token a)) with
  | Some NotUniqueError => Some ErrUnableToCreateToken
  | err => err
  end.

(** [CreateAuthorization]: the returned error ([None] is nil), the
    transaction afterwards and the caller's record afterwards. *)
Definition CreateAuthorization (tx : Tx) (a : Authorization)
  : option error * Tx * Authorization :=
  let assigned :=
    if negb (ID_Valid (ID a)) then
      match generateSafeID tx authBucket with
      | Err _ => None                                   (* return nil *)
      | Ok id => Some (with_ID a id)
      end
    else Some a in
  match assigned with
  | None => (None, tx, a)
  | Some a =>
  let '(r, a) := encodeAuthorization a in
  match r with
  | Err err => (Some (InfluxdbWrap (Some EInvalid) err), tx, a)
  | Ok v =>
  match ID_Encode (ID a) with
  | Err err => (Some (ErrInvalidAuthIDError err), tx, a)
  | Ok encodedID =>
  match authIndexBucket tx with
  | Err err => (Some err, tx, a)
  | Ok idx =>
  match uniqueAuthToken tx a with
  | Some err => (Some err, tx, a)
  | None =>
  match tx_Bucket tx authBucket with
  | Err err => (Some err, tx, a)
  | Ok b =>
  match bucket_Put tx idx (authIndexKey (Token a)) encodedID with
  | Err err => (Some (InfluxdbWrap (Some EInternal) err), tx, a)
  | Ok tx1 =>
  match bucket_Put tx1 b encodedID v with
  | Err err => (Some (InfluxdbWrap None err), tx1, a)
  | Ok tx2 => (None, tx2, a)
  end end end end end end end end.

(** [GetAuthorizationByID].  The result [a] is a named return value that
    the body never assigns before the decode: it is the nil pointer when
    [decodeAuthorization(v, a)] runs. *)
Definition GetAuthorizationByID (tx : Tx) (id : influxdb_ID) : result Authorization :=
  let a : option Authorization := None in
  match ID_Encode id with
  | Err _ => Err ErrInvalidAuthID
  | Ok encodedID =>
  match tx_Bucket tx authBucket with
  | Err err => Err (ErrInternalServiceError err)
  | Ok b =>
  match bucket_Get tx b encodedID with
  | Err err =>
      if IsNotFound err then Err ErrAuthNotFound
      else Err (ErrInternalServiceError err)
  | Ok v =>
  match decodeAuthorization v a with
  | Err err => Err (InfluxdbWrap (Some EInvalid) err)
  | Ok a => Ok a
  end end end end.

(** [GetAuthorizationByToken].  After the not-found test the error of the
    index lookup is not examined again: on any other failure the code goes
    on with the nil key the lookup returned. *)
Definition GetAuthorizationByToken (tx : Tx) (token : string) : result Authorization :=
  match authIndexBucket tx with
  | Err err => Err err
  | Ok idx =>
  let lookedUp :=
    match bucket_Get tx idx (authIndexKey token) with
    | Ok idKey => Some idKey
    | Err err => if IsNotFound err then None else Some ""
    end in
  match lookedUp with
  | None => Err (InfluxdbMsg ENotFound "authorization not found")
  | Some idKey =>
  match ID_Decode idKey with
  | Err err => Err (InfluxdbWrap (Some EInvalid) err)
  | Ok id => GetAuthorizationByID tx id
  end end end.

(** [authorizationsPredicateFn]: the cursor hint, [None] for the nil
    function.  Each closure ignores the key except to pass it on. *)
Definition authorizationsPredicateFn (f : AuthorizationFilter.t)
  : option CursorPredicateFunc :=
  match AuthorizationFilter.ID f with
  | Some exp =>
      Some (fun _ value =>
              match jsonp_GetID value "id" with
              | Err _ => true
              | Ok got => N.eqb got exp
              end)
  | None =>
  match AuthorizationFilter.Token f with
  | Some exp =>
      Some (fun _ value =>
              match jsonparser_Get value "token" with
              | Err _ => true
              | Ok got => String.eqb got exp
              end)
  | None =>
  let pred : option CursorPredicateFunc :=
    match AuthorizationFilter.OrgID f with
    | Some exp =>
        Some (fun _ value =>
                match jsonp_GetID value "orgID" with
                | Err _ => true
                | Ok got => N.eqb got exp
                end)
    | None => None
    end in
  match AuthorizationFilter.UserID f with
  | Some exp =>
      let prevFn := pred in
      Some (fun key value =>
              let prev :=
                match prevFn with
                | None => true
                | Some p => p key value
                end in
              let '(got, exists_, err) := jsonp_GetOptionalID value "userID" in
              prev && ((N.eqb exp got && exists_)
                       || match err with Some _ => true | None => false end))
  | None => pred
  end end end.

Definition filterAuthorizationsFn (filter : AuthorizationFilter.t)
  : Authorization -> bool :=
  match AuthorizationFilter.ID filter with
  | Some id => fun a => N.eqb (ID a) id
  | None =>
  match AuthorizationFilter.Token filter with
  | Some token => fun a => String.eqb (Token a) token
  | None =>
  match AuthorizationFilter.OrgID filter, AuthorizationFilter.UserID filter with
  | Some org, Some user => fun a => N.eqb (OrgID a) org && N.eqb (UserID a) user
  | Some org, None => fun a => N.eqb (OrgID a) org
  | None, Some user => fun a => N.eqb (UserID a) user
  | None, None => fun _ => true
  end end end.

(** The [for k, v := cur.First(); k != nil; k, v = cur.Next()] loop over
    the entries the cursor yields.  The callback is a Go closure; its
    captured variables are the state [S] threaded through the calls. *)
Fixpoint forEachAuthorization_loop {S : Type} (fn : S -> Authorization -> S * bool)
  (cur : list (bytes * bytes)) (s : S) : option error * S :=
  match cur with
  | [] => (None, s)
  | (_, v) :: rest =>
      match decodeAuthorization v (Some preallocated) with
      | Err err => (Some err, s)
      | Ok a =>
          let '(s', continue) := fn s a in
          if continue then forEachAuthorization_loop fn rest s'
          else (None, s')
      end
  end.

Definition forEachAuthorization {S : Type} (tx : Tx) (pred : option CursorPredicateFunc)
  (fn : S -> Authorization -> S * bool) (s : S) : option error * S :=
  match tx_Bucket tx authBucket with
  | Err err => (Some err, s)
  | Ok b =>
      match bucket_Cursor tx b pred with
      | Err err => (Some err, s)
      | Ok cur => forEachAuthorization_loop fn cur s
      end
  end.

Definition ListAuthorizations (tx : Tx) (f : AuthorizationFilter.t)
  : result (list Authorization) :=
  match tx_Bucket tx authBucket with
  | Err err => Err err
  | Ok _ =>
      let pred := authorizationsPredicateFn f in
      let filterFn := filterAuthorizationsFn f in
      match forEachAuthorization tx pred
              (fun as_ a => (if filterFn a then (as_ ++ [a])%list else as_, true)) [] with
      | (Some err, _) => Err err
      | (None, as_) => Ok as_
      end
  end.

(** [UpdateAuthorization] from the point where the record [a] has been
    loaded (the statements after the first error check). *)
Definition UpdateAuthorization_loaded (tx : Tx) (a : Authorization)
  (upd : AuthorizationUpdate.t) : result Authorization * Tx :=
  let '(r, a) := encodeAuthorization a in
  match r with
  | Err err => (Err (InfluxdbWrap (Some EInvalid) err), tx)
  | Ok v =>
  match ID_Encode (ID a) with
  | Err err => (Err (InfluxdbWrap (Some ENotFound) err), tx)
  | Ok encodedID =>
  let a := match AuthorizationUpdate.Status upd with
           | Some s => with_Status a s
           | None => a
           end in
  let a := match AuthorizationUpdate.Description upd with
           | Some d => with_Description a d
           | None => a
           end in
  let a := SetUpdatedAt a time_Now in
  match authIndexBucket tx with
  | Err err => (Err err, tx)
  | Ok idx =>
  match bucket_Put tx idx (authIndexKey (Token a)) encodedID with
  | Err err => (Err (InfluxdbWrap (Some EInternal) err), tx)
  | Ok tx1 =>
  match tx_Bucket tx1 authBucket with
  | Err err => (Err err, tx1)
  | Ok b =>
  match bucket_Put tx1 b encodedID v with
  | Err err => (Err (InfluxdbWrap None err), tx1)
  | Ok tx2 => (Ok a, tx2)
  end end end end end end.

Definition UpdateAuthorization (tx : Tx) (id : influxdb_ID)
  (upd : AuthorizationUpdate.t) : result Authorization * Tx :=
  match GetAuthorizationByID tx id with
  | Err err => (Err (InfluxdbWrap (Some ENotFound) err), tx)
  | Ok a => UpdateAuthorization_loaded tx a upd
  end.

(** [DeleteAuthorization] from the point where the record [a] has been
    loaded. *)
Definition DeleteAuthorization_loaded (tx : Tx) (id : influxdb_ID)
  (a : Authorization) : option error * Tx :=
  match ID_Encode id with
  | Err _ => (Some ErrInvalidAuthID, tx)
  | Ok encodedID =>
  match authIndexBucket tx with
  | Err err => (Some err, tx)
  | Ok idx =>
  match tx_Bucket tx authBucket with
  | Err err => (Some err, tx)
  | Ok b =>
  match bucket_Delete tx idx (Token a) with
  | Err err => (Some (ErrInternalServiceError err), tx)
  | Ok tx1 =>
  match bucket_Delete tx1 b encodedID with
  | Err err => (Some (ErrInternalServiceError err), tx1)
  | Ok tx2 => (None, tx2)
  end end end end end.

Definition DeleteAuthorization (tx : Tx) (id : influxdb_ID) : option error * Tx :=
  match GetAuthorizationByID tx id with
  | Err _ => (None, tx)                                   (* return nil *)
  | Ok a => DeleteAuthorization_loaded tx id a
  end.

End Store.

(** ** A sample environment

    A concrete instance of [Env], used to run the code on concrete inputs.
    Identifiers are encoded as 16 hexadecimal digits and the zero identifier
    is the invalid one.  The JSON libraries are restricted to a small table
    of documents: [json_Marshal] knows the records of the table,
    [json_Unmarshal] and the field extractors know its documents, and
    everything else is an error of the library. *)

Module Sample.

Definition hexDigit (n : N) : ascii :=
  match n with
  | 0 => "0" | 1 => "1" | 2 => "2" | 3 => "3" | 4 => "4" | 5 => "5"
  | 6 => "6" | 7 => "7" | 8 => "8" | 9 => "9" | 10 => "a" | 11 => "b"
  | 12 => "c" | 13 => "d" | 14 => "e" | _ => "f"
  end%N%char.

Fixpoint hexOf (digits : nat) (n : N) : string :=
  match digits with
  | O => ""
  | S d => hexOf d (n / 16)%N ++ String (hexDigit (n mod 16)%N) ""
  end.

Definition hexValue (c : ascii) : option N :=
  let n := N_of_ascii c in
  if ((48 <=? n) && (n <=? 57))%N then Some (n - 48)%N
  else if ((97 <=? n) && (n <=? 102))%N then Some (n - 87)%N
  else None.

Fixpoint parseHex (acc : N) (s : string) : option N :=
  match s with
  | "" => Some acc
  | String c rest =>
      match hexValue c with
      | Some d => parseHex (16 * acc + d)%N rest
      | None => None
      end
  end.

Definition Valid (id : influxdb_ID) : bool := negb (id =? 0)%N.

Definition Encode (id : influxdb_ID) : result bytes :=
  if Valid id then Ok (hexOf 16 id) else Err (ExternalError "invalid ID").

Definition Decode (b : bytes) : result influxdb_ID :=
  if Nat.eqb (String.length b) 16 then
    match parseHex 0 b with
    | Some id => if Valid id then Ok id else Err (ExternalError "invalid ID")
    | None => Err (ExternalError "invalid ID")
    end
  else Err (ExternalError "id must have a length of 16 bytes").

Definition recA : Authorization :=
  mkAuthorization 1%N "a" Active "" 10%N 100%N [] 0%Z 0%Z.
Definition recB : Authorization :=
  mkAuthorization 2%N "b" Active "" 10%N 200%N [] 0%Z 0%Z.
(** a record that reuses the identifier of [recA] under another token *)
Definition recB1 : Authorization :=
  mkAuthorization 1%N "b" Active "" 10%N 200%N [] 0%Z 0%Z.
(** a record without a user: its document has no userID field *)
Definition recN : Authorization :=
  mkAuthorization 3%N "n" Active "" 10%N 0%N [] 0%Z 0%Z.
(** a record written before the status field existed *)
Definition recL : Authorization :=
  mkAuthorization 4%N "l" "" "" 10%N 100%N [] 0%Z 0%Z.
(** another record with the token of [recA] *)
Definition recA2 : Authorization :=
  mkAuthorization 5%N "a" Active "" 10%N 100%N [] 0%Z 0%Z.
(** a record with the token of [recA] and a status the codec rejects *)
Definition recBad : Authorization :=
  mkAuthorization 6%N "a" "revoked" "" 10%N 100%N [] 0%Z 0%Z.

Definition documents : list (bytes * Authorization) :=
  [("doc-A", recA); ("doc-B", recB); ("doc-B1", recB1); ("doc-N", recN);
   ("doc-L", recL); ("doc-A2", recA2)].

Definition Permission_eq_dec (p q : Permission) : {p = q} + {p <> q}.
Proof.
  decide equality; try apply string_dec;
    decide equality; apply N.eq_dec.
Defined.

Definition Authorization_eq_dec (a b : Authorization) : {a = b} + {a <> b}.
Proof.
  decide equality; try apply string_dec; try apply N.eq_dec;
    try apply Z.eq_dec.
  apply (list_eq_dec Permission_eq_dec).
Defined.

Fixpoint documentOf (a : Authorization) (docs : list (bytes * Authorization))
  : option bytes :=
  match docs with
  | [] => None
  | (d, r) :: rest =>
      if Authorization_eq_dec a r then Some d else documentOf a rest
  end.

Fixpoint recordOf (d : bytes) (docs : list (bytes * Authorization))
  : option Authorization :=
  match docs with
  | [] => None
  | (d', r) :: rest => if String.eqb d d' then Some r else recordOf d rest
  end.

Definition Marshal (a : Authorization) : result bytes :=
  match documentOf a documents with
  | Some d => Ok d
  | None => Err (ExternalError "json: unsupported value")
  end.

Definition Unmarshal (d : bytes) (target : Authorization) : result Authorization :=
  match recordOf d documents with
  | Some r => Ok r
  | None => Err (ExternalError "invalid character")
  end.

Definition checkValid (d : bytes) : option error :=
  match recordOf d documents with
  | Some _ => None
  | None => Some (ExternalError "invalid character")
  end.

Definition keyPathNotFound : error := ExternalError "Key path not found".

Definition Get (d : bytes) (key : string) : result bytes :=
  match recordOf d documents with
  | Some r => if String.eqb key "token" then Ok (Token r) else Err keyPathNotFound
  | None => Err keyPathNotFound
  end.

Definition GetID (d : bytes) (key : string) : result influxdb_ID :=
  match recordOf d documents with
  | Some r =>
      if String.eqb key "id" then Ok (ID r)
      else if String.eqb key "orgID" then Ok (OrgID r)
      else Err keyPathNotFound
  | None => Err keyPathNotFound
  end.

Definition GetOptionalID (d : bytes) (key : string)
  : influxdb_ID * bool * option error :=
  match recordOf d documents with
  | Some r =>
      if String.eqb key "userID" && Valid (UserID r)
      then (UserID r, true, None)
      else (0%N, false, None)
  | None => (0%N, false, None)
  end.

(** The environment, for a given identifier generator. *)
Definition env (gen : Tx -> BucketName -> result influxdb_ID) : Env :=
  mkEnv Valid Encode Decode Marshal Unmarshal checkValid Get GetID GetOptionalID
        gen 1000%Z.

(** A generator that hands out an identifier past those in use, and one
    that always fails. *)
Definition counterGen (tx : Tx) (b : BucketName) : result influxdb_ID :=
  Ok (N.of_nat (List.length (contents tx b)) + 100)%N.
Definition failingGen (tx : Tx) (b : BucketName) : result influxdb_ID :=
  Err (ExternalError "unable to generate valid id").

Definition sampleEnv : Env := env counterGen.

(** Stores: empty; after creating [recA]; after creating [recA] and
    [recB]; after creating [recA] and then [recB1] under the same
    identifier; and [storeA] with a failing index lookup. *)
Definition keyA : bytes := "0000000000000001".
Definition keyB : bytes := "0000000000000002".
Definition keyN : bytes := "0000000000000003".
Definition empty : Tx := mkTx [] [] noFaults true.
Definition storeA : Tx := mkTx [(keyA, "doc-A")] [("a", keyA)] noFaults true.
Definition storeAB : Tx :=
  mkTx [(keyA, "doc-A"); (keyB, "doc-B")] [("a", keyA); ("b", keyB)] noFaults true.
Definition storeClash : Tx :=
  mkTx [(keyA, "doc-B1")] [("a", keyA); ("b", keyA)] noFaults true.
Definition storeFaulty : Tx :=
  mkTx [(keyA, "doc-A")] [("a", keyA)]
       (mkFaults (fun _ => None)
                 (fun b _ => match b with
                             | authIndex => Some "i/o error"
                             | authBucket => None
                             end)
                 (fun _ _ => None) (fun _ _ => None) (fun _ => None))
       true.

End Sample.

(** ** The configuration-override parser (package [override])

    A [Flagger] is built from a string of the form [k1:v1,k2:v2,...] and
    overrides the defaults of feature flags with the values it holds.  The
    feature flags ([feature.Flag]) and the parsers of strconv live outside
    the package and are parameters of the section below. *)

Module Override.

(** The delimiters [Comma] and [Colon]: one byte each. *)
Definition Comma : ascii := ","%char.
Definition Colon : ascii := ":"%char.

(** A Go map with string keys, as the association list of its entries: no
    key occurs twice, [map_get] is the lookup [m[k]] and [map_set] the
    assignment [m[k] = v]. *)
Definition gomap (V : Type) : Type := list (string * V).

Fixpoint map_get {V : Type} (k : string) (m : gomap V) : option V :=
  match m with
  | [] => None
  | (k', v) :: rest => if String.eqb k k' then Some v else map_get k rest
  end.

Fixpoint map_set {V : Type} (k : string) (v : V) (m : gomap V) : gomap V :=
  match m with
  | [] => [(k, v)]
  | (k', v') :: rest =>
      if String.eqb k k' then (k, v) :: rest else (k', v') :: map_set k v rest
  end.

(** [strings.Split(s, sep)] for a separator of one byte: the substrings
    between the occurrences of the separator, one more than there are
    occurrences; a string without the separator is the only piece. *)
Fixpoint strings_Split (sep : ascii) (s : string) : list string :=
  match s with
  | EmptyString => [EmptyString]
  | String c rest =>
      if Ascii.eqb c sep then EmptyString :: strings_Split sep rest
      else match strings_Split sep rest with
           | [] => [String c EmptyString]
           | piece :: pieces => String c piece :: pieces
           end
  end.

(** The types of flag that [coerce] tells apart in its type switch; every
    other type takes the default branch. *)
Inductive FlagKind := BoolFlag | IntFlag | FloatFlag | OtherFlag.

(** The errors of the package: [errMalformed(s)] and the error [coerce]
    builds from the string, the type of the flag and the error of the
    strconv parser. *)
Inductive error :=
  | errMalformed (s : string)
  | errCoerce (s : string) (kind : FlagKind) (cause : string).

(** [Flagger]: the overrides parsed from the configuration string. *)
Record Flagger := mkFlagger { flags : gomap string }.

(** [parse]: the loop over the pairs, with the map built so far. *)
Fixpoint parse_pairs (s : string) (pairs : list string) (m : gomap string)
  : gomap string + error :=
  match pairs with
  | [] => inl m
  | pair_ :: rest =>
      match strings_Split Colon pair_ with
      | [k; v] => parse_pairs s rest (map_set k v m)
      | _ => inr (errMalformed s)
      end
  end.

Definition parse (s : string) : gomap string + error :=
  let pairs := strings_Split Comma s in
  let m : gomap string := [] in
  if Nat.ltb (List.length pairs) 1 then inr (errMalformed s)
  else parse_pairs s pairs m.

(** [Make] *)
Definition Make (s : string) : Flagger + error :=
  match parse s with
  | inr err => inr err
  | inl flags => inl (mkFlagger flags)
  end.

Section Flags.

(** [float64] and the parsers of strconv; each answers a value or the
    message of its error. *)
Variable float64 : Type.
Variable strconv_ParseBool : string -> bool + string.
Variable strconv_Atoi : string -> Z + string.
Variable strconv_ParseFloat : string -> float64 + string.

(** An [interface{}] value as [Flags] produces it. *)
Inductive value :=
  | VBool (b : bool)
  | VInt (n : Z)
  | VFloat (x : float64)
  | VString (s : string).

(** Modelled from the spec: [feature.Flag] is declared outside the package;
    the code uses its [Key], its [Default] and its dynamic type. *)
Record Flag := mkFlag {
  Key : string;
  Default : value;
  kind : FlagKind
}.

(** [feature.Flags()]: all the flags known to the program. *)
Variable feature_Flags : list Flag.

(** [coerce] *)
Definition coerce (s : string) (flag : Flag) : value + error :=
  let r : value + string :=
    match kind flag with
    | BoolFlag =>
        match strconv_ParseBool s with
        | inl b => inl (VBool b)
        | inr err => inr err
        end
    | IntFlag =>
        match strconv_Atoi s with
        | inl n => inl (VInt n)
        | inr err => inr err
        end
    | FloatFlag =>
        match strconv_ParseFloat s with
        | inl x => inl (VFloat x)
        | inr err => inr err
        end
    | OtherFlag => inl (VString s)
    end in
  match r with
  | inr err => inr (errCoerce s (kind flag) err)
  | inl iface => inl iface
  end.

(** The loop of [Flags] over the requested flags, with the map built so
    far. *)
Fixpoint Flags_loop (f : Flagger) (requested : list Flag) (m : gomap value)
  : gomap value + error :=
  match requested with
  | [] => inl m
  | flag :: rest =>
      match map_get (Key flag) (flags f) with
      | Some s =>
          match coerce s flag with
          | inr err => inr err
          | inl iface => Flags_loop f rest (map_set (Key flag) iface m)
          end
      | None => Flags_loop f rest (map_set (Key flag) (Default flag) m)
      end
  end.

(** [Flags]: with no flag requested, all the flags of the program. *)
Definition Flags (f : Flagger) (requested : list Flag) : gomap value + error :=
  let requested :=
    if Nat.eqb (List.length requested) 0 then feature_Flags else requested in
  Flags_loop f requested [].

(** The flags a call is about: those requested, or all the flags of the
    program when none is requested. *)
Definition effective (requested : list Flag) : list Flag :=
  match requested with
  | [] => feature_Flags
  | _ => requested
  end.

(** The parser that [coerce] picks for the flag rejects the string; a flag
    of any other type has no parser to reject it. *)
Definition rejects (s : string) (flag : Flag) : Prop :=
  match kind flag with
  | BoolFlag => exists cause, strconv_ParseBool s = inr cause
  | IntFlag => exists cause, strconv_Atoi s = inr cause
  | FloatFlag => exists cause, strconv_ParseFloat s = inr cause
  | OtherFlag => False
  end.

End Flags.

Arguments VBool {float64} b.
Arguments VInt {float64} n.
Arguments VFloat {float64} x.
Arguments VString {float64} s.
Arguments mkFlag {float64} Key Default kind.
Arguments Key {float64} f.
Arguments Default {float64} f.
Arguments kind {float64} f.

(** *** Vocabulary *)

(** The number of occurrences of a byte in a string, and its absence. *)
Fixpoint count (c : ascii) (s : string) : nat :=
  match s with
  | EmptyString => 0
  | String c' rest => (if Ascii.eqb c' c then 1 else 0) + count c rest
  end.

Definition plain (s : string) : Prop := count Comma s = 0 /\ count Colon s = 0.

(** The configuration string of a list of key-value pairs. *)
Definition render_pair (kv : string * string) : string :=
  fst kv ++ String Colon (snd kv).

Fixpoint render (pairs : list (string * string)) : string :=
  match pairs with
  | [] => EmptyString
  | [kv] => render_pair kv
  | kv :: rest => render_pair kv ++ String Comma (render rest)
  end.

Definition plain_pair (kv : string * string) : Prop :=
  plain (fst kv) /\ plain (snd kv).

(** The map that assigning the pairs in order builds. *)
Definition from_pairs (pairs : list (string * string)) : gomap string :=
  fold_left (fun m kv => map_set (fst kv) (snd kv) m) pairs [].

End Override.

(** ** Vocabulary of the statements *)

(** Ascending key order: every entry's key is strictly below the keys of
    all later entries (byte-wise lexicographic order). *)
Definition key_lt (e1 e2 : bytes * bytes) : Prop :=
  String.compare (fst e1) (fst e2) = Lt.

Definition ascending (l : list (bytes * bytes)) : Prop :=
  StronglySorted key_lt l.

(** A status the codec accepts. *)
Definition validStatus (s : influxdb_Status) : Prop :=
  s = Active \/ s = Inactive \/ s = "".

(** The record with an empty status replaced by Active. *)
Definition normalized (r : Authorization) : Authorization :=
  if String.eqb (Status r) "" then with_Status r Active else r.

(** The filter asks for the zero user in the user position, which is
    looked at when neither an identifier nor a token is set. *)
Definition asksZeroUser (f : AuthorizationFilter.t) : Prop :=
  AuthorizationFilter.ID f = None /\ AuthorizationFilter.Token f = None /\
  AuthorizationFilter.UserID f = Some 0%N.

(** [a] is the record [r] with an empty status read as Active: the status
    of [a] is that of [r], or Active where [r] has none, and every other
    field of [a] is the field of [r]. *)
Definition readAs (r a : Authorization) : Prop :=
  ID a = ID r /\ Token a = Token r /\ Description a = Description r /\
  OrgID a = OrgID r /\ UserID a = UserID r /\ Permissions a = Permissions r /\
  CreatedAt a = CreatedAt r /\ UpdatedAt a = UpdatedAt r /\
  Status a = (if String.eqb (Status r) "" then Active else Status r).

(** The callback that [ListAuthorizations] passes to the iteration. *)
Definition collect (flt : Authorization -> bool) (as_ : list Authorization)
  (a : Authorization) : list Authorization * bool :=
  (if flt a then (as_ ++ [a])%list else as_, true).

Section Vocabulary.
Context {E : Env}.

(** The law of the JSON library the codec relies on: a document produced by
    [json.Marshal] decodes, into a zero record or into the record that
    [forEachAuthorization] preallocates, to the record it was made from. *)
Definition json_roundtrip : Prop :=
  forall (a : Authorization) (v : bytes),
    json_Marshal a = Ok v ->
    json_Unmarshal v zeroAuthorization = Ok a /\
    json_Unmarshal v preallocated = Ok a.

(** The same for one record: the JSON library reads [a] back from what it
    wrote for [a].  encoding/json does so for a record whose strings are
    valid UTF-8; a byte that is not is written as the replacement character
    U+FFFD, and that is what is read back. *)
Definition readsBack (a : Authorization) : Prop :=
  forall v : bytes,
    json_Marshal a = Ok v ->
    json_Unmarshal v zeroAuthorization = Ok a /\
    json_Unmarshal v preallocated = Ok a.

(** The record a stored entry holds, as the traversal reads it: what the
    JSON library decodes from the value into the preallocated record, with
    an empty status read as Active. *)
Definition readFrom (e : bytes * bytes) (a : Authorization) : Prop :=
  exists a0, json_Unmarshal (snd e) preallocated = Ok a0 /\ readAs a0 a.

(** The stored entry holds a record with token [t]. *)
Definition carries (t : string) (e : bytes * bytes) : bool :=
  match json_Unmarshal (snd e) preallocated with
  | Ok a => String.eqb (Token a) t
  | Err _ => false
  end.

(** The field extractors agree with the full decoding of a value: whatever
    they extract without error from [v] is the field of the record [a] that
    [v] decodes to, and a userID reported absent means the record has the
    zero user.  For the token this is the assumption written in the code:
    the token has no escaped string data. *)
Definition extraction_agrees (v : bytes) (a : Authorization) : Prop :=
  (forall got, jsonp_GetID v "id" = Ok got -> got = ID a) /\
  (forall got, jsonparser_Get v "token" = Ok got -> got = Token a) /\
  (forall got, jsonp_GetID v "orgID" = Ok got -> got = OrgID a) /\
  (forall got exists_,
      jsonp_GetOptionalID v "userID" = (got, exists_, None) ->
      if exists_ then got = UserID a else UserID a = 0%N).

(** The extraction the hint predicate of [f] performs on [v] reports an
    error for every field it looks at. *)
Definition extraction_fails (f : AuthorizationFilter.t) (v : bytes) : Prop :=
  match AuthorizationFilter.ID f, AuthorizationFilter.Token f with
  | Some _, _ => exists err, jsonp_GetID v "id" = Err err
  | None, Some _ => exists err, jsonparser_Get v "token" = Err err
  | None, None =>
      (AuthorizationFilter.OrgID f <> None ->
       exists err, jsonp_GetID v "orgID" = Err err) /\
      (AuthorizationFilter.UserID f <> None ->
       exists got exists_ err,
         jsonp_GetOptionalID v "userID" = (got, exists_, Some err))
  end.

(** The hint predicate of a filter as a total function (the nil function
    accepts everything, as no hint is passed to the cursor then). *)
Definition hintOf (f : AuthorizationFilter.t) : CursorPredicateFunc :=
  match authorizationsPredicateFn f with
  | Some p => p
  | None => fun _ _ => true
  end.

(** The state a callback reaches after being called on [recs] in order,
    and whether every one of those calls asked to continue. *)
Fixpoint run {S : Type} (fn : S -> Authorization -> S * bool) (s : S)
  (recs : list Authorization) : S :=
  match recs with
  | [] => s
  | a :: rest => run fn (fst (fn s a)) rest
  end.

Fixpoint allContinue {S : Type} (fn : S -> Authorization -> S * bool) (s : S)
  (recs : list Authorization) : bool :=
  match recs with
  | [] => true
  | a :: rest => snd (fn s a) && allContinue fn (fst (fn s a)) rest
  end.

(** [v] is a stored value that [forEachAuthorization] decodes to [a]. *)
Definition decodesTo (e : bytes * bytes) (a : Authorization) : Prop :=
  decodeAuthorization (snd e) (Some preallocated) = Ok a.

(** How a traversal that called the callback on [recs] and left [rest]
    unvisited came to its end, with the error [err] it returned: the cursor
    was exhausted; or the last call answered false; or the JSON library
    failed to decode the next entry, with the error returned. *)
Definition visit_outcome {S : Type} (fn : S -> Authorization -> S * bool) (s : S)
  (recs : list Authorization) (rest : list (bytes * bytes)) (err : option error)
  : Prop :=
  (err = None /\ rest = [] /\ allContinue fn s recs = true) \/
  (err = None /\
   exists init last,
     recs = (init ++ [last])%list /\ allContinue fn s init = true /\
     snd (fn (run fn s init) last) = false) \/
  (exists e err' rest',
     rest = e :: rest' /\
     json_Unmarshal (snd e) preallocated = Err err' /\
     err = Some err' /\ allContinue fn s recs = true).

(** Bidirectional consistency of the token index with the primary bucket:
    every index entry maps its token to a key under which the primary
    bucket holds a record with that token; and every primary entry holds a
    record whose encoded identifier is the entry's key and whose token the
    index maps to that key.  The record an entry holds is what the JSON
    library decodes from its value. *)
Definition consistent (tx : Tx) : Prop :=
  (forall t k, lookup t (index tx) = Some k ->
     exists v a, lookup k (auths tx) = Some v /\
                 json_Unmarshal v preallocated = Ok a /\
                 Token a = t) /\
  (forall k v, lookup k (auths tx) = Some v ->
     exists a, json_Unmarshal v preallocated = Ok a /\
               ID_Encode (ID a) = Ok k /\
               lookup (Token a) (index tx) = Some k).

(** States reachable from an empty store by committed operations.  An
    operation that returns an error is rolled back by the caller's
    transaction and leaves the state it started from. *)
Inductive reachable : Tx -> Prop :=
  | reach_empty (fl : Faults) (h : bool) : reachable (mkTx [] [] fl h)
  | reach_create tx a tx' a' :
      reachable tx ->
      CreateAuthorization tx a = (None, tx', a') ->
      reachable tx'
  | reach_update tx id upd tx' a' :
      reachable tx ->
      UpdateAuthorization tx id upd = (Ok a', tx') ->
      reachable tx'
  | reach_delete tx id tx' :
      reachable tx ->
      DeleteAuthorization tx id = (None, tx') ->
      reachable tx'.


End Vocabulary.

(** ** Vocabulary of the further properties *)

(** The filter with no field set. *)
Definition noFilter : AuthorizationFilter.t :=
  AuthorizationFilter.mk None None None None.

(** The same transaction with the store's use of hints set to [h]. *)
Definition with_hints (tx : Tx) (h : bool) : Tx :=
  mkTx (auths tx) (index tx) (faults tx) h.

Section MoreVocabulary.
Context {E : Env}.

(** The record after the identifier step: the record itself when its
    identifier is valid, the record with the generated identifier when it
    is not and the generator succeeds. *)
Definition identified (tx : Tx) (a a1 : Authorization) : Prop :=
  (ID_Valid (ID a) = true /\ a1 = a) \/
  (ID_Valid (ID a) = false /\
   exists id, generateSafeID tx authBucket = Ok id /\ a1 = with_ID a id).

End MoreVocabulary.

(** ** More sample inputs *)

Module Cases.

(** A store that cannot open the index bucket; one whose writes to the
    primary bucket fail; one whose cursors fail; and one holding a value
    that is not a document. *)
Definition storeNoIndex : Tx :=
  mkTx [] []
       (mkFaults (fun b => match b with
                           | authIndex => Some "bucket not found"
                           | authBucket => None
                           end)
                 (fun _ _ => None) (fun _ _ => None) (fun _ _ => None)
                 (fun _ => None))
       true.

Definition storePutFails : Tx :=
  mkTx [] []
       (mkFaults (fun _ => None) (fun _ _ => None)
                 (fun b _ => match b with
                             | authBucket => Some "disk full"
                             | authIndex => None
                             end)
                 (fun _ _ => None) (fun _ => None))
       true.

Definition storeNoCursor : Tx :=
  mkTx [(Sample.keyA, "doc-A")] [("a", Sample.keyA)]
       (mkFaults (fun _ => None) (fun _ _ => None) (fun _ _ => None)
                 (fun _ _ => None) (fun _ => Some "cursor closed"))
       true.

Definition storeCorrupt : Tx :=
  mkTx [(Sample.keyA, "doc-A"); (Sample.keyB, "not a document")]
       [("a", Sample.keyA)] noFaults false.

(** A store whose lookups in the primary bucket fail. *)
Definition storeGetFails : Tx :=
  mkTx [(Sample.keyA, "doc-A")] [("a", Sample.keyA)]
       (mkFaults (fun _ => None)
                 (fun b _ => match b with
                             | authBucket => Some "read error"
                             | authIndex => None
                             end)
                 (fun _ _ => None) (fun _ _ => None) (fun _ => None))
       true.

(** A record without identifier and with a status the codec rejects. *)
Definition recUnidentified : Authorization :=
  mkAuthorization 0%N "u" "revoked" "" 10%N 100%N [] 0%Z 0%Z.

(** [strconv.ParseBool] accepts 1, t, T, TRUE, true, True, 0, f, F, FALSE,
    false, False. *)
Definition ParseBool (s : string) : bool + string :=
  if existsb (String.eqb s) ["1"; "t"; "T"; "TRUE"; "true"; "True"] then inl true
  else if existsb (String.eqb s) ["0"; "f"; "F"; "FALSE"; "false"; "False"]
       then inl false
  else inr "invalid syntax".

(** A decimal reader for unsigned numerals, standing in for
    [strconv.Atoi], and a float parser that knows no numeral. *)
Fixpoint digits (acc : Z) (s : string) : option Z :=
  match s with
  | EmptyString => Some acc
  | String c rest =>
      let n := Z.of_N (N_of_ascii c) in
      if ((48 <=? n) && (n <=? 57))%Z then digits (10 * acc + (n - 48))%Z rest
      else None
  end.

Definition Atoi (s : string) : Z + string :=
  match s with
  | EmptyString => inr "invalid syntax"
  | _ => match digits 0 s with
         | Some n => inl n
         | None => inr "invalid syntax"
         end
  end.

Definition ParseFloat (s : string) : Z + string := inr "invalid syntax".

(** Three flags of the program. *)
Definition flagBool : Override.Flag Z :=
  Override.mkFlag "newLabels" (Override.VBool false) Override.BoolFlag.
Definition flagInt : Override.Flag Z :=
  Override.mkFlag "maxTasks" (Override.VInt 10) Override.IntFlag.
Definition flagString : Override.Flag Z :=
  Override.mkFlag "backend" (Override.VString "bolt") Override.OtherFlag.
Definition allFlags : list (Override.Flag Z) := [flagBool; flagInt; flagString].

Definition sampleFlags :=
  Override.Flags Z ParseBool Atoi ParseFloat allFlags.

End Cases.

(** ** A JSON library that coerces invalid UTF-8

    encoding/json writes a string byte that is not valid UTF-8 as the
    replacement character U+FFFD, so such a string is not read back as it
    was.  This instance of [Env] is the sample environment with one record
    of that kind added: [recRaw], whose token is the single byte 0xFF, is
    written as the document that reads back as [recRead], whose token is
    U+FFFD (the bytes EF BF BD). *)

Module Lossy.

Definition invalidUTF8 : string := String (ascii_of_N 255) EmptyString.

Definition replacementChar : string :=
  String (ascii_of_N 239) (String (ascii_of_N 191) (String (ascii_of_N 189) EmptyString)).

Definition recRaw : Authorization :=
  mkAuthorization 7%N invalidUTF8 Active "" 10%N 100%N [] 0%Z 0%Z.
Definition recRead : Authorization :=
  mkAuthorization 7%N replacementChar Active "" 10%N 100%N [] 0%Z 0%Z.

(** What [json_Marshal] writes for which record, and what the readers find
    in which document. *)
Definition written : list (bytes * Authorization) :=
  ("doc-R", recRaw) :: ("doc-R", recRead) :: Sample.documents.
Definition stored : list (bytes * Authorization) :=
  ("doc-R", recRead) :: Sample.documents.

Definition Marshal (a : Authorization) : result bytes :=
  match Sample.documentOf a written with
  | Some d => Ok d
  | None => Err (ExternalError "json: unsupported value")
  end.

Definition Unmarshal (d : bytes) (target : Authorization) : result Authorization :=
  match Sample.recordOf d stored with
  | Some r => Ok r
  | None => Err (ExternalError "invalid character")
  end.

Definition checkValid (d : bytes) : option error :=
  match Sample.recordOf d stored with
  | Some _ => None
  | None => Some (ExternalError "invalid character")
  end.

Definition Get (d : bytes) (key : string) : result bytes :=
  match Sample.recordOf d stored with
  | Some r =>
      if String.eqb key "token" then Ok (Token r) else Err Sample.keyPathNotFound
  | None => Err Sample.keyPathNotFound
  end.

Definition GetID (d : bytes) (key : string) : result influxdb_ID :=
  match Sample.recordOf d stored with
  | Some r =>
      if String.eqb key "id" then Ok (ID r)
      else if String.eqb key "orgID" then Ok (OrgID r)
      else Err Sample.keyPathNotFound
  | None => Err Sample.keyPathNotFound
  end.

Definition GetOptionalID (d : bytes) (key : string)
  : influxdb_ID * bool * option error :=
  match Sample.recordOf d stored with
  | Some r =>
      if String.eqb key "userID" && Sample.Valid (UserID r)
      then (UserID r, true, None)
      else (0%N, false, None)
  | None => (0%N, false, None)
  end.

Definition lossyEnv : Env :=
  mkEnv Sample.Valid Sample.Encode Sample.Decode Marshal Unmarshal checkValid
        Get GetID GetOptionalID Sample.counterGen 1000%Z.


End Lossy.

(** * Properties *)

(** ** Buckets *)

Section Buckets.

Lemma compare_refl (x : string) : String.compare x x = Eq.
Proof. now apply (proj2 (String_as_OT.cmp_eq x x)). Qed.

Lemma lookup_insert_eq (k v : bytes) (l : list (bytes * bytes)) :
  lookup k (insert k v l) = Some v.
Proof.
  induction l as [|[k' v'] rest IH]; simpl.
  - now rewrite String.eqb_refl.
  - destruct (String.compare k k') eqn:C; simpl.
    + now rewrite String.eqb_refl.
    + now rewrite String.eqb_refl.
    + destruct (String.eqb_spec k k') as [->|_]; [|exact IH].
      rewrite compare_refl in C. discriminate.
Qed.

Lemma lookup_insert_ne (k k' v : bytes) (l : list (bytes * bytes)) :
  k' <> k -> lookup k' (insert k v l) = lookup k' l.
Proof.
  intros Hne.
  induction l as [|[k0 v0] rest IH]; simpl.
  - destruct (String.eqb_spec k' k); [contradiction|reflexivity].
  - destruct (String.compare k k0) eqn:C; simpl.
    + apply String.compare_eq_iff in C. subst k0.
      destruct (String.eqb_spec k' k); [contradiction|reflexivity].
    + destruct (String.eqb_spec k' k); [contradiction|reflexivity].
    + now rewrite IH.
Qed.

Lemma lookup_remove_eq (k : bytes) (l : list (bytes * bytes)) :
  lookup k (remove k l) = None.
Proof.
  induction l as [|[k' v'] rest IH]; simpl; [reflexivity|].
  destruct (String.eqb k k') eqn:Ek; [exact IH|].
  simpl. now rewrite Ek.
Qed.

Lemma lookup_remove_ne (k k' : bytes) (l : list (bytes * bytes)) :
  k' <> k -> lookup k' (remove k l) = lookup k' l.
Proof.
  intros Hne.
  induction l as [|[k0 v0] rest IH]; simpl; [reflexivity|].
  destruct (String.eqb_spec k k0) as [<-|Hk].
  - destruct (String.eqb_spec k' k); [contradiction|exact IH].
  - simpl. now rewrite IH.
Qed.

Lemma compare_lt_trans (x y z : string) :
  String.compare x y = Lt -> String.compare y z = Lt -> String.compare x z = Lt.
Proof.
  intros Hxy Hyz.
  apply String_as_OT.cmp_lt.
  apply String_as_OT.lt_trans with y; now apply String_as_OT.cmp_lt.
Qed.

Lemma compare_gt_lt (x y : string) :
  String.compare x y = Gt -> String.compare y x = Lt.
Proof.
  intros H. rewrite String.compare_antisym, H. reflexivity.
Qed.

Lemma in_insert (k v : bytes) (l : list (bytes * bytes)) (e : bytes * bytes) :
  In e (insert k v l) -> e = (k, v) \/ In e l.
Proof.
  induction l as [|[k' v'] rest IH]; simpl.
  - intros [<-|[]]. now left.
  - destruct (String.compare k k'); simpl.
    + intros [<-|H]; auto.
    + intros [<-|[<-|H]]; auto.
    + intros [<-|H]; auto. destruct (IH H); auto.
Qed.

Lemma in_remove (k : bytes) (l : list (bytes * bytes)) (e : bytes * bytes) :
  In e (remove k l) -> In e l.
Proof.
  induction l as [|[k' v'] rest IH]; simpl; [tauto|].
  destruct (String.eqb k k'); simpl; intuition.
Qed.

Lemma insert_ascending (k v : bytes) (l : list (bytes * bytes)) :
  ascending l -> ascending (insert k v l).
Proof.
  unfold ascending.
  induction 1 as [|[k' v'] rest Hs IH Hall]; simpl.
  - repeat constructor.
  - destruct (String.compare k k') eqn:C.
    + apply String.compare_eq_iff in C. subst k'.
      constructor; [exact Hs|exact Hall].
    + constructor; [now constructor|].
      constructor; [exact C|].
      rewrite Forall_forall in *. intros e He.
      unfold key_lt in *. simpl in *.
      eapply compare_lt_trans; [exact C|]. now apply Hall.
    + constructor; [exact IH|].
      rewrite Forall_forall in *. intros e He.
      destruct (in_insert _ _ _ _ He) as [->|Hin].
      * unfold key_lt. simpl. now apply compare_gt_lt.
      * now apply Hall.
Qed.

Lemma remove_ascending (k : bytes) (l : list (bytes * bytes)) :
  ascending l -> ascending (remove k l).
Proof.
  unfold ascending.
  induction 1 as [|[k' v'] rest Hs IH Hall]; simpl.
  - constructor.
  - destruct (String.eqb k k'); [exact IH|].
    constructor; [exact IH|].
    rewrite Forall_forall in *. intros e He.
    apply Hall. now apply in_remove in He.
Qed.

Lemma filter_ascending (p : bytes * bytes -> bool) (l : list (bytes * bytes)) :
  ascending l -> ascending (filter p l).
Proof.
  unfold ascending.
  induction 1 as [|e rest Hs IH Hall]; simpl.
  - constructor.
  - destruct (p e); [|exact IH].
    constructor; [exact IH|].
    rewrite Forall_forall in *. intros x Hx.
    apply Hall. apply filter_In in Hx. tauto.
Qed.

(** In an ascending bucket no key occurs twice. *)
Lemma lookup_In (k v : bytes) (l : list (bytes * bytes)) :
  lookup k l = Some v -> In (k, v) l.
Proof.
  induction l as [|[k' v'] rest IH]; simpl; [discriminate|].
  destruct (String.eqb_spec k k') as [<-|Hne].
  - intros [= <-]. now left.
  - intros H. right. now apply IH.
Qed.

(** In an ascending bucket every entry is the one its key looks up. *)
Lemma ascending_In_lookup (k v : bytes) (l : list (bytes * bytes)) :
  ascending l -> In (k, v) l -> lookup k l = Some v.
Proof.
  unfold ascending.
  induction 1 as [|[k' v'] rest Hs IH Hall]; simpl; [tauto|].
  intros [[= <- <-]|Hin].
  - now rewrite String.eqb_refl.
  - rewrite Forall_forall in Hall. specialize (Hall _ Hin).
    unfold key_lt in Hall. simpl in Hall.
    destruct (String.eqb_spec k k') as [->|Hne].
    + rewrite compare_refl in Hall. discriminate.
    + now apply IH.
Qed.

Lemma ascending_NoDup_keys (l : list (bytes * bytes)) :
  ascending l -> NoDup (map fst l).
Proof.
  unfold ascending.
  induction 1 as [|e rest Hs IH Hall]; simpl; constructor; [|exact IH].
  intros Hin. apply in_map_iff in Hin. destruct Hin as [x [Hx Hin]].
  rewrite Forall_forall in Hall. specialize (Hall x Hin).
  unfold key_lt in Hall. rewrite Hx in Hall.
  rewrite compare_refl in Hall. discriminate.
Qed.

End Buckets.

(** ** The codec *)

Section Codec.
Context {E : Env}.

Lemma normalized_status_nonempty (r : Authorization) :
  String.eqb (Status (normalized r)) "" = false.
Proof.
  unfold normalized.
  destruct (String.eqb (Status r) "") eqn:Es; [reflexivity|exact Es].
Qed.

Lemma normalized_idem (r : Authorization) :
  normalized (normalized r) = normalized r.
Proof.
  unfold normalized at 1. now rewrite normalized_status_nonempty.
Qed.

Lemma encodeAuthorization_valid (r : Authorization) :
  validStatus (Status r) ->
  encodeAuthorization r = (json_Marshal (normalized r), normalized r).
Proof.
  unfold validStatus, encodeAuthorization, normalized.
  intros [H|[H|H]]; rewrite H; reflexivity.
Qed.

Lemma encodeAuthorization_invalid (r : Authorization) :
  ~ validStatus (Status r) ->
  encodeAuthorization r =
    (Err (InfluxdbMsg EInvalid "unknown authorization status"), r).
Proof.
  unfold validStatus, encodeAuthorization. intros H.
  destruct (String.eqb_spec (Status r) Active) as [e|_]; [tauto|].
  destruct (String.eqb_spec (Status r) Inactive) as [e|_]; [tauto|].
  destruct (String.eqb_spec (Status r) "") as [e|_]; [tauto|].
  reflexivity.
Qed.

(** What [encodeAuthorization] leaves in the caller's record differs from
    the argument in the status at most. *)
Lemma encodeAuthorization_record (r : Authorization) :
  snd (encodeAuthorization r) = r \/
  snd (encodeAuthorization r) = with_Status r Active.
Proof.
  unfold encodeAuthorization.
  destruct (String.eqb (Status r) Active || String.eqb (Status r) Inactive);
    [now left|].
  destruct (String.eqb (Status r) ""); [now right|now left].
Qed.

Lemma encodeAuthorization_ok (r : Authorization) (v : bytes) :
  fst (encodeAuthorization r) = Ok v ->
  validStatus (Status r) /\ json_Marshal (normalized r) = Ok v /\
  snd (encodeAuthorization r) = normalized r.
Proof.
  unfold encodeAuthorization, validStatus, normalized.
  destruct (String.eqb_spec (Status r) Active) as [e|n1]; simpl.
  - rewrite e. simpl. auto.
  - destruct (String.eqb_spec (Status r) Inactive) as [e|n2]; simpl.
    + rewrite e. simpl. auto.
    + destruct (String.eqb_spec (Status r) "") as [e|n3]; simpl.
      * auto.
      * discriminate.
Qed.

Lemma decodeAuthorization_target (v : bytes) (target a : Authorization) :
  json_Unmarshal v target = Ok a ->
  decodeAuthorization v (Some target) = Ok (normalized a).
Proof.
  unfold decodeAuthorization, Unmarshal, normalized. intros ->.
  destruct (String.eqb (Status a) ""); reflexivity.
Qed.

(** Decoding into the nil pointer fails whatever the bytes are. *)
Lemma decodeAuthorization_nil (v : bytes) :
  decodeAuthorization v None = Err (nilTargetError v).
Proof. reflexivity. Qed.

Lemma decodeAuthorization_error (v : bytes) (target : Authorization) (err : error) :
  json_Unmarshal v target = Err err ->
  decodeAuthorization v (Some target) = Err err.
Proof. unfold decodeAuthorization, Unmarshal. now intros ->. Qed.

(** [readAs] determines the record: it is the normalized one. *)
Lemma readAs_normalized (r a : Authorization) :
  readAs r a <-> a = normalized r.
Proof.
  unfold readAs, normalized. split.
  - intros [H1 [H2 [H3 [H4 [H5 [H6 [H7 [H8 H9]]]]]]]].
    destruct r, a; simpl in *; subst.
    match goal with
    | |- context [String.eqb ?x ""] => destruct (String.eqb x "")
    end; reflexivity.
  - intros ->.
    destruct (String.eqb (Status r) "") eqn:Es; simpl; rewrite ?Es; auto 10.
Qed.

(** C7 (as amended).  Take a record [r] whose status is Active, Inactive
    or empty, and let [r'] be [r] with an empty status read as Active.  If
    the JSON library reads [r'] back from what it writes for it, then
    encoding leaves the caller's record as [r'], the encoding is what the
    library writes for [r'], and every encoding produced decodes to
    exactly [r'], into a zero record as into the preallocated one.
    Decoding normalizes on its own: whatever the library decodes from
    stored bytes comes back with an empty status read as Active and all
    other fields as decoded.  Any other status makes the encoder fail with
    the Invalid-input error, producing no bytes and leaving the record as
    it was. *)
Theorem encode_decode_roundtrip :
  (forall r r', validStatus (Status r) -> readAs r r' -> readsBack r' ->
     snd (encodeAuthorization r) = r' /\
     fst (encodeAuthorization r) = json_Marshal r' /\
     forall v, fst (encodeAuthorization r) = Ok v ->
       decodeAuthorization v (Some zeroAuthorization) = Ok r' /\
       decodeAuthorization v (Some preallocated) = Ok r') /\
  (forall v target a, json_Unmarshal v target = Ok a ->
     exists a', decodeAuthorization v (Some target) = Ok a' /\ readAs a a') /\
  (forall r, ~ validStatus (Status r) ->
     encodeAuthorization r =
       (Err (InfluxdbMsg EInvalid "unknown authorization status"), r)).
Proof.
  split; [|split].
  - intros r r' Hv Hr Hrb. apply readAs_normalized in Hr. subst r'.
    rewrite (encodeAuthorization_valid r Hv). simpl.
    split; [reflexivity|]. split; [reflexivity|].
    intros v Hm. destruct (Hrb _ Hm) as [Hz Hp].
    rewrite (decodeAuthorization_target _ _ _ Hz).
    rewrite (decodeAuthorization_target _ _ _ Hp).
    now rewrite normalized_idem.
  - intros v target a Hu. exists (normalized a).
    split; [exact (decodeAuthorization_target v target a Hu)|].
    now apply readAs_normalized.
  - exact encodeAuthorization_invalid.
Qed.

End Codec.

(** ** The sample environment satisfies the laws *)

Module SampleFacts.
Import Sample.

Lemma documentOf_recordOf (a : Authorization) (d : bytes) :
  documentOf a documents = Some d -> recordOf d documents = Some a.
Proof.
  unfold documents. simpl.
  repeat (match goal with
          | |- context [Authorization_eq_dec a ?x] =>
              destruct (Authorization_eq_dec a x) as [->|_]
          end; [intros [= <-]; reflexivity|]).
  discriminate.
Qed.

Lemma roundtrip gen : @json_roundtrip (env gen).
Proof.
  intros a v. simpl. unfold Marshal, Unmarshal.
  destruct (documentOf a documents) as [d|] eqn:Hd; [|discriminate].
  intros [= <-]. now rewrite (documentOf_recordOf _ _ Hd).
Qed.

Lemma agrees gen (d : bytes) (r : Authorization) :
  recordOf d documents = Some r -> @extraction_agrees (env gen) d r.
Proof.
  intros Hr. unfold extraction_agrees. simpl.
  unfold GetID, Get, GetOptionalID. rewrite Hr. simpl.
  repeat split.
  - now intros got [= <-].
  - now intros got [= <-].
  - now intros got [= <-].
  - intros got ex. unfold Valid.
    destruct (N.eqb_spec (UserID r) 0) as [e|n]; simpl.
    + now intros [= <- <-].
    + now intros [= <- <-].
Qed.

End SampleFacts.

(** ** Lookup by identifier, update and delete *)

Section ByID.
Context {E : Env}.

Lemma tx_Bucket_inv (tx : Tx) (name b : BucketName) :
  tx_Bucket tx name = Ok b -> b = name.
Proof.
  unfold tx_Bucket. destruct (failBucket (faults tx) name); now intros [= <-].
Qed.

(** The possible results of [GetAuthorizationByID]: the record is never
    among them, because the decode always runs on the nil pointer. *)
Lemma GetAuthorizationByID_cases (tx : Tx) (id : influxdb_ID) :
  GetAuthorizationByID tx id = Err ErrInvalidAuthID \/
  GetAuthorizationByID tx id = Err ErrAuthNotFound \/
  (exists err, GetAuthorizationByID tx id = Err (ErrInternalServiceError err)) \/
  (exists v, GetAuthorizationByID tx id =
               Err (InfluxdbWrap (Some EInvalid) (nilTargetError v))).
Proof.
  unfold GetAuthorizationByID.
  destruct (ID_Encode id) as [k|e]; [|now left].
  destruct (tx_Bucket tx authBucket) as [b|e]; [|right; right; left; eauto].
  destruct (bucket_Get tx b k) as [v|e].
  - rewrite decodeAuthorization_nil. right. right. right. eauto.
  - destruct (IsNotFound e); [tauto|right; right; left; eauto].
Qed.

Lemma GetAuthorizationByID_never_ok (tx : Tx) (id : influxdb_ID) (a : Authorization) :
  GetAuthorizationByID tx id <> Ok a.
Proof.
  destruct (GetAuthorizationByID_cases tx id) as [H|[H|[[e H]|[v H]]]];
    rewrite H; discriminate.
Qed.

Lemma GetAuthorizationByID_missing (tx : Tx) (id : influxdb_ID) (k : bytes) :
  ID_Encode id = Ok k ->
  tx_Bucket tx authBucket = Ok authBucket ->
  bucket_Get tx authBucket k = Err ErrKeyNotFound ->
  GetAuthorizationByID tx id = Err ErrAuthNotFound.
Proof.
  intros He Hb Hg. unfold GetAuthorizationByID.
  now rewrite He, Hb, Hg.
Qed.

(** On a stored entry the decode target is nil, so the lookup fails with
    the Invalid error whatever the bytes are. *)
Lemma GetAuthorizationByID_stored (tx : Tx) (id : influxdb_ID) (k v : bytes) :
  ID_Encode id = Ok k ->
  tx_Bucket tx authBucket = Ok authBucket ->
  bucket_Get tx authBucket k = Ok v ->
  GetAuthorizationByID tx id =
    Err (InfluxdbWrap (Some EInvalid) (nilTargetError v)).
Proof.
  intros He Hb Hg. unfold GetAuthorizationByID.
  rewrite He, Hb, Hg. reflexivity.
Qed.

(** C1 (the code departs from it).  With an identifier that encodes and a
    store that answers, [GetAuthorizationByID] returns Not-Found when the
    primary bucket has no entry under the encoded identifier, as claimed;
    but when it has one, the stored record is not returned: the result is
    the Invalid error wrapping the JSON library's nil-target error,
    whatever the stored bytes are. *)
Theorem GetAuthorizationByID_stored_fails (tx : Tx) (id : influxdb_ID) (k : bytes) :
  ID_Encode id = Ok k ->
  tx_Bucket tx authBucket = Ok authBucket ->
  failGet (faults tx) authBucket k = None ->
  GetAuthorizationByID tx id =
    match lookup k (auths tx) with
    | Some v => Err (InfluxdbWrap (Some EInvalid) (nilTargetError v))
    | None => Err ErrAuthNotFound
    end.
Proof.
  intros He Hb Hf.
  destruct (lookup k (auths tx)) as [v|] eqn:Hl.
  - apply (GetAuthorizationByID_stored tx id k v He Hb).
    unfold bucket_Get. simpl. now rewrite Hf, Hl.
  - apply (GetAuthorizationByID_missing tx id k He Hb).
    unfold bucket_Get. simpl. now rewrite Hf, Hl.
Qed.

Lemma UpdateAuthorization_never_ok (tx tx' : Tx) (id : influxdb_ID)
  (upd : AuthorizationUpdate.t) (a : Authorization) :
  UpdateAuthorization tx id upd <> (Ok a, tx').
Proof.
  unfold UpdateAuthorization.
  destruct (GetAuthorizationByID tx id) eqn:Hg; [|discriminate].
  now apply GetAuthorizationByID_never_ok in Hg.
Qed.

(** On a stored record [UpdateAuthorization] does not succeed for any
    update: it returns the Not-Found-coded error wrapping the failure of
    the lookup and writes nothing. *)
Lemma UpdateAuthorization_stored_fails (tx : Tx) (id : influxdb_ID) (k v : bytes)
  (upd : AuthorizationUpdate.t) :
  ID_Encode id = Ok k ->
  tx_Bucket tx authBucket = Ok authBucket ->
  bucket_Get tx authBucket k = Ok v ->
  UpdateAuthorization tx id upd =
    (Err (InfluxdbWrap (Some ENotFound)
            (InfluxdbWrap (Some EInvalid) (nilTargetError v))), tx).
Proof.
  intros He Hb Hg. unfold UpdateAuthorization.
  now rewrite (GetAuthorizationByID_stored tx id k v He Hb Hg).
Qed.

(** The statements after the load would not persist the update either:
    the bytes written to the primary bucket are the encoding made before
    the status and the description are applied. *)
Lemma UpdateAuthorization_loaded_persists_old (tx tx' : Tx) (a a' : Authorization)
  (upd : AuthorizationUpdate.t) :
  UpdateAuthorization_loaded tx a upd = (Ok a', tx') ->
  exists k v,
    ID_Encode (ID a) = Ok k /\
    json_Marshal (normalized a) = Ok v /\
    lookup k (auths tx') = Some v /\
    a' = SetUpdatedAt
           (match AuthorizationUpdate.Description upd with
            | Some d => with_Description
                          (match AuthorizationUpdate.Status upd with
                           | Some s => with_Status (normalized a) s
                           | None => normalized a
                           end) d
            | None => match AuthorizationUpdate.Status upd with
                      | Some s => with_Status (normalized a) s
                      | None => normalized a
                      end
            end) time_Now.
Proof.
  unfold UpdateAuthorization_loaded.
  destruct (encodeAuthorization a) as [r a0] eqn:Henc.
  destruct r as [v|e]; [|discriminate].
  destruct (encodeAuthorization_ok a v) as [_ [Hm Hs]];
    [now rewrite Henc|].
  rewrite Henc in Hs. simpl in Hs. subst a0.
  assert (Hid : ID (normalized a) = ID a).
  { unfold normalized. now destruct (String.eqb (Status a) ""). }
  rewrite Hid.
  destruct (ID_Encode (ID a)) as [k|e]; [|discriminate].
  destruct (authIndexBucket tx) as [idx|e]; [|discriminate].
  destruct (bucket_Put tx idx _ k) as [tx1|e]; [|discriminate].
  destruct (tx_Bucket tx1 authBucket) as [b|e] eqn:Hb; [|discriminate].
  apply tx_Bucket_inv in Hb. subst b.
  unfold bucket_Put at 1.
  destruct (failPut (faults tx1) authBucket k); [discriminate|].
  intros [= <- <-]. exists k, v. simpl.
  rewrite lookup_insert_eq.
  split; [reflexivity|]. split; [exact Hm|]. split; [reflexivity|].
  destruct (AuthorizationUpdate.Status upd), (AuthorizationUpdate.Description upd);
    reflexivity.
Qed.

Lemma DeleteAuthorization_noop (tx : Tx) (id : influxdb_ID) :
  DeleteAuthorization tx id = (None, tx).
Proof.
  unfold DeleteAuthorization.
  destruct (GetAuthorizationByID tx id) eqn:Hg; [|reflexivity].
  now apply GetAuthorizationByID_never_ok in Hg.
Qed.

(** The statements of [DeleteAuthorization] after the load do remove both
    entries; the function never gets that far. *)
Lemma DeleteAuthorization_loaded_removes (tx tx' : Tx) (id : influxdb_ID)
  (a : Authorization) :
  DeleteAuthorization_loaded tx id a = (None, tx') ->
  exists k,
    ID_Encode id = Ok k /\
    lookup (Token a) (index tx') = None /\
    lookup k (auths tx') = None.
Proof.
  unfold DeleteAuthorization_loaded.
  destruct (ID_Encode id) as [k|e]; [|discriminate].
  destruct (authIndexBucket tx) as [idx|e] eqn:Hidx; [|discriminate].
  assert (idx = authIndex).
  { unfold authIndexBucket in Hidx.
    destruct (tx_Bucket tx authIndex) as [b0|e0] eqn:Hb0; [|discriminate].
    apply tx_Bucket_inv in Hb0. congruence. }
  subst idx.
  destruct (tx_Bucket tx authBucket) as [b|e] eqn:Hb; [|discriminate].
  apply tx_Bucket_inv in Hb. subst b.
  unfold bucket_Delete at 1.
  destruct (failDelete (faults tx) authIndex (Token a)); [discriminate|].
  unfold bucket_Delete. simpl.
  destruct (failDelete (faults tx) authBucket k); [discriminate|].
  intros [= <-]. exists k. simpl.
  now rewrite !lookup_remove_eq.
Qed.

Lemma GetAuthorizationByToken_stored_fails (tx : Tx) (token : string)
  (id : influxdb_ID) (k v : bytes) :
  tx_Bucket tx authIndex = Ok authIndex ->
  bucket_Get tx authIndex (authIndexKey token) = Ok k ->
  ID_Decode k = Ok id ->
  ID_Encode id = Ok k ->
  tx_Bucket tx authBucket = Ok authBucket ->
  bucket_Get tx authBucket k = Ok v ->
  GetAuthorizationByToken tx token =
    Err (InfluxdbWrap (Some EInvalid) (nilTargetError v)).
Proof.
  intros Hi Hg Hd He Hb Hv. unfold GetAuthorizationByToken, authIndexBucket.
  rewrite Hi, Hg, Hd.
  exact (GetAuthorizationByID_stored tx id k v He Hb Hv).
Qed.

(** C3 (the code departs from it).  Deleting an identifier with no stored
    record returns success and changes nothing, as claimed; but deleting a
    stored record does the same: it returns success, the primary entry and
    the index entry are still there, and the lookups by identifier and by
    token afterwards yield the Invalid error, not Not-Found. *)
Theorem DeleteAuthorization_stored_remains (tx : Tx) (id : influxdb_ID)
  (token : string) (k v : bytes) :
  ID_Encode id = Ok k ->
  ID_Decode k = Ok id ->
  tx_Bucket tx authBucket = Ok authBucket ->
  tx_Bucket tx authIndex = Ok authIndex ->
  bucket_Get tx authBucket k = Ok v ->
  bucket_Get tx authIndex (authIndexKey token) = Ok k ->
  DeleteAuthorization tx id = (None, tx) /\
  bucket_Get (snd (DeleteAuthorization tx id)) authBucket k = Ok v /\
  bucket_Get (snd (DeleteAuthorization tx id)) authIndex (authIndexKey token) = Ok k /\
  GetAuthorizationByID (snd (DeleteAuthorization tx id)) id =
    Err (InfluxdbWrap (Some EInvalid) (nilTargetError v)) /\
  GetAuthorizationByToken (snd (DeleteAuthorization tx id)) token =
    Err (InfluxdbWrap (Some EInvalid) (nilTargetError v)).
Proof.
  intros He Hd Hb Hi Hg Ht. rewrite DeleteAuthorization_noop. simpl.
  split; [reflexivity|]. split; [exact Hg|]. split; [exact Ht|].
  split.
  - exact (GetAuthorizationByID_stored tx id k v He Hb Hg).
  - exact (GetAuthorizationByToken_stored_fails tx token id k v Hi Ht Hd He Hb Hg).
Qed.

End ByID.

(** ** Uniqueness of tokens and creation *)

Section Create.
Context {E : Env}.

Lemma unique_absent (tx : Tx) (b : BucketName) (key : bytes) :
  tx_Bucket tx b = Ok b ->
  bucket_Get tx b key = Err ErrKeyNotFound ->
  unique tx b key = None.
Proof. intros Hb Hg. unfold unique. now rewrite Hb, Hg. Qed.

Lemma unique_present (tx : Tx) (b : BucketName) (key v : bytes) :
  tx_Bucket tx b = Ok b ->
  bucket_Get tx b key = Ok v ->
  unique tx b key = Some NotUniqueError.
Proof. intros Hb Hg. unfold unique. now rewrite Hb, Hg. Qed.

Lemma unique_lookup_failure (tx : Tx) (b : BucketName) (key : bytes) (err : error) :
  tx_Bucket tx b = Ok b ->
  bucket_Get tx b key = Err err ->
  IsNotFound err = false ->
  unique tx b key = Some (UnexpectedIndexError err).
Proof. intros Hb Hg Hn. unfold unique. now rewrite Hb, Hg, Hn. Qed.

(** [unique] answers nil only when the store reports the key as not found,
    and the store reports that only for a key it does not hold. *)
Lemma unique_none_lookup (tx : Tx) (b : BucketName) (key : bytes) :
  unique tx b key = None -> lookup key (contents tx b) = None.
Proof.
  unfold unique.
  destruct (tx_Bucket tx b) as [b'|e] eqn:Hb; [|discriminate].
  apply tx_Bucket_inv in Hb. subst b'.
  unfold bucket_Get.
  destruct (failGet (faults tx) b key); [discriminate|].
  destruct (lookup key (contents tx b)); [discriminate|reflexivity].
Qed.

Lemma uniqueAuthToken_none (tx : Tx) (a : Authorization) :
  uniqueAuthToken tx a = None -> lookup (Token a) (index tx) = None.
Proof.
  unfold uniqueAuthToken, authIndexKey. intros H.
  apply (unique_none_lookup tx authIndex).
  destruct (unique tx authIndex (Token a)) as [e|]; [|reflexivity].
  destruct e; discriminate.
Qed.

Lemma ascending_one_entry (l : list (bytes * bytes)) (t k : bytes) :
  ascending l ->
  lookup t l = Some k ->
  List.length (filter (fun e : bytes * bytes => String.eqb t (fst e)) l) = 1.
Proof.
  unfold ascending.
  induction 1 as [|[k' v'] rest Hs IH Hall]; simpl; [discriminate|].
  destruct (String.eqb_spec t k') as [<-|Hne].
  - intros _. simpl. f_equal.
    assert (Hnone : filter (fun e : bytes * bytes => String.eqb t (fst e)) rest = []).
    { clear IH Hs. induction rest as [|e rest IHr]; simpl; [reflexivity|].
      inversion Hall as [|? ? Hlt Hall']; subst.
      unfold key_lt in Hlt. simpl in Hlt.
      destruct (String.eqb t (fst e)) eqn:He.
      - apply String.eqb_eq in He.
        rewrite <- He, compare_refl in Hlt. discriminate.
      - now apply IHr. }
    now rewrite Hnone.
  - exact IH.
Qed.

(** C10.  When the record carries no valid identifier and the generator
    fails, [CreateAuthorization] returns nil, writes to neither bucket and
    leaves the record as it was, without an identifier. *)
Theorem CreateAuthorization_generator_failure (tx : Tx) (a : Authorization) (err : error) :
  ID_Valid (ID a) = false ->
  generateSafeID tx authBucket = Err err ->
  CreateAuthorization tx a = (None, tx, a).
Proof.
  intros Hv Hg. unfold CreateAuthorization. now rewrite Hv, Hg.
Qed.

(** In a consistent store with an ascending primary bucket, an indexed
    token is carried by exactly one primary entry: the one the index
    points to. *)
Lemma consistent_one_primary (tx : Tx) (t : string) (k : bytes) :
  ascending (auths tx) ->
  consistent tx ->
  lookup t (index tx) = Some k ->
  List.length (filter (carries t) (auths tx)) = 1.
Proof.
  intros Hasc [Hidx Hprim] Hl.
  destruct (Hidx _ _ Hl) as [v [a [Hlv [Hu Ht]]]].
  rewrite (filter_ext_in (carries t)
             (fun e : bytes * bytes => String.eqb k (fst e))).
  - exact (ascending_one_entry _ _ _ Hasc Hlv).
  - intros [k' v'] Hin.
    pose proof (ascending_In_lookup _ _ _ Hasc Hin) as Hl'.
    destruct (Hprim _ _ Hl') as [a' [Hu' [_ Hi']]].
    unfold carries. simpl. rewrite Hu'.
    destruct (String.eqb_spec k k') as [<-|Hne].
    + rewrite Hlv in Hl'. injection Hl' as <-.
      rewrite Hu in Hu'. injection Hu' as <-.
      rewrite Ht. apply String.eqb_refl.
    + destruct (String.eqb_spec (Token a') t) as [Heq|Hneq]; [|reflexivity].
      rewrite Heq, Hl in Hi'. congruence.
Qed.

(** C4 (as amended).  Take a record whose creation reaches the uniqueness
    check: after the identifier step it is [a1] (the record itself when its
    identifier is valid, the record with the generated identifier
    otherwise), its status is accepted, it serializes and its identifier
    encodes, and the index bucket opens.  If its token is already indexed,
    [CreateAuthorization] fails with the generic [ErrUnableToCreateToken]
    and leaves the transaction as it was.  In the transaction afterwards
    the index (a bucket holds its keys in ascending order, each once) has
    exactly one entry for the token, and where the index and the primary
    bucket were consistent, exactly one primary entry holds a record with
    the token.  A lookup failure other than not-found comes back wrapped as
    [UnexpectedIndexError], and a token absent from the index passes the
    check. *)
Theorem CreateAuthorization_duplicate_token :
  (forall tx a a1 v k k0,
     (ID_Valid (ID a) = true /\ a1 = a) \/
     (ID_Valid (ID a) = false /\
      exists id, generateSafeID tx authBucket = Ok id /\ a1 = with_ID a id) ->
     validStatus (Status a) ->
     json_Marshal (normalized a1) = Ok v ->
     ID_Encode (ID a1) = Ok k ->
     tx_Bucket tx authIndex = Ok authIndex ->
     bucket_Get tx authIndex (authIndexKey (Token a)) = Ok k0 ->
     CreateAuthorization tx a = (Some ErrUnableToCreateToken, tx, normalized a1) /\
     (ascending (index tx) ->
      List.length
        (filter (fun e : bytes * bytes => String.eqb (Token a) (fst e))
                (index (snd (fst (CreateAuthorization tx a))))) = 1) /\
     (ascending (auths tx) -> consistent tx ->
      List.length
        (filter (carries (Token a))
                (auths (snd (fst (CreateAuthorization tx a))))) = 1)) /\
  (forall tx a err,
     tx_Bucket tx authIndex = Ok authIndex ->
     bucket_Get tx authIndex (authIndexKey (Token a)) = Err err ->
     IsNotFound err = false ->
     uniqueAuthToken tx a = Some (UnexpectedIndexError err)) /\
  (forall tx a,
     tx_Bucket tx authIndex = Ok authIndex ->
     bucket_Get tx authIndex (authIndexKey (Token a)) = Err ErrKeyNotFound ->
     uniqueAuthToken tx a = None).
Proof.
  split; [|split].
  - intros tx a a1 v k k0 Hid Hst Hm He Hb Hg.
    assert (Hst1 : validStatus (Status a1)).
    { destruct Hid as [[_ ->]|[_ [id [_ ->]]]]; exact Hst. }
    assert (Htok : Token a1 = Token a).
    { destruct Hid as [[_ ->]|[_ [id [_ ->]]]]; reflexivity. }
    assert (Htokn : Token (normalized a1) = Token a).
    { unfold normalized. now destruct (String.eqb (Status a1) ""). }
    assert (Hidn : ID (normalized a1) = ID a1).
    { unfold normalized. now destruct (String.eqb (Status a1) ""). }
    assert (Hc : CreateAuthorization tx a =
                   (Some ErrUnableToCreateToken, tx, normalized a1)).
    { unfold CreateAuthorization.
      assert (Has : (if negb (ID_Valid (ID a))
                     then match generateSafeID tx authBucket with
                          | Ok id => Some (with_ID a id)
                          | Err _ => None
                          end
                     else Some a) = Some a1).
      { destruct Hid as [[Hv ->]|[Hv [id [Hgen ->]]]]; rewrite Hv; simpl;
          [reflexivity|now rewrite Hgen]. }
      rewrite Has. rewrite (encodeAuthorization_valid a1 Hst1), Hm.
      rewrite Hidn, He. unfold authIndexBucket. rewrite Hb.
      unfold uniqueAuthToken. rewrite Htokn.
      now rewrite (unique_present tx authIndex _ k0 Hb Hg). }
    assert (Hl : lookup (Token a) (index tx) = Some k0).
    { unfold bucket_Get in Hg.
      destruct (failGet (faults tx) authIndex (authIndexKey (Token a)));
        [discriminate|].
      simpl in Hg. unfold authIndexKey in Hg.
      destruct (lookup (Token a) (index tx)) as [k1|]; [|discriminate].
      now injection Hg as ->. }
    rewrite Hc. simpl.
    split; [reflexivity|]. split.
    + intros Hasc. exact (ascending_one_entry _ _ _ Hasc Hl).
    + intros Hasc Hcons. exact (consistent_one_primary tx _ k0 Hasc Hcons Hl).
  - intros tx a err Hb Hg Hn. unfold uniqueAuthToken.
    now rewrite (unique_lookup_failure tx authIndex _ err Hb Hg Hn).
  - intros tx a Hb Hg. unfold uniqueAuthToken.
    now rewrite (unique_absent tx authIndex _ Hb Hg).
Qed.

End Create.

(** ** Consistency of the index with the primary bucket *)

Section Invariant.
Context {E : Env}.

(** What a successful [CreateAuthorization] did: nothing (the generator
    failed), or one write to each bucket for a token not indexed before. *)
Lemma CreateAuthorization_success (tx tx' : Tx) (a a' : Authorization) :
  CreateAuthorization tx a = (None, tx', a') ->
  tx' = tx \/
  exists k v,
    ID_Encode (ID a') = Ok k /\
    json_Marshal a' = Ok v /\
    normalized a' = a' /\
    lookup (Token a') (index tx) = None /\
    tx' = mkTx (insert k v (auths tx)) (insert (Token a') k (index tx))
               (faults tx) (usesHints tx).
Proof.
  unfold CreateAuthorization.
  destruct (if negb (ID_Valid (ID a)) then _ else _) as [a1|];
    [|intros [= <- <-]; now left].
  destruct (encodeAuthorization a1) as [r a2] eqn:Henc.
  destruct r as [v|e]; [|discriminate].
  destruct (encodeAuthorization_ok a1 v) as [_ [Hm Hs]]; [now rewrite Henc|].
  rewrite Henc in Hs. simpl in Hs. subst a2.
  destruct (ID_Encode (ID (normalized a1))) as [k|e] eqn:He; [|discriminate].
  destruct (authIndexBucket tx) as [idx|e] eqn:Hidx; [|discriminate].
  assert (idx = authIndex).
  { unfold authIndexBucket in Hidx.
    destruct (tx_Bucket tx authIndex) as [b0|e0] eqn:Hb0; [|discriminate].
    apply tx_Bucket_inv in Hb0. congruence. }
  subst idx.
  destruct (uniqueAuthToken tx (normalized a1)) as [e|] eqn:Hu; [discriminate|].
  apply uniqueAuthToken_none in Hu.
  destruct (tx_Bucket tx authBucket) as [b|e] eqn:Hb; [|discriminate].
  apply tx_Bucket_inv in Hb. subst b.
  unfold bucket_Put at 1.
  destruct (failPut (faults tx) authIndex _); [discriminate|].
  unfold bucket_Put. simpl.
  destruct (failPut (faults tx) authBucket k); [discriminate|].
  intros [= <- <-]. right. exists k, v.
  rewrite normalized_idem. unfold authIndexKey. auto.
Qed.


Lemma consistent_empty (fl : Faults) (h : bool) : consistent (mkTx [] [] fl h).
Proof. split; simpl; intros; discriminate. Qed.

(** One pair of writes keeps the buckets consistent when the token is new
    to the index and the key is new to the primary bucket. *)
Lemma consistent_insert (tx : Tx) (a : Authorization) (k v : bytes) :
  consistent tx ->
  ID_Encode (ID a) = Ok k ->
  json_Unmarshal v preallocated = Ok a ->
  lookup (Token a) (index tx) = None ->
  lookup k (auths tx) = None ->
  consistent (mkTx (insert k v (auths tx)) (insert (Token a) k (index tx))
                   (faults tx) (usesHints tx)).
Proof.
  intros [Hidx Hprim] He Hd Hnew Hfresh. split; simpl.
  - intros t k' Hl.
    destruct (string_dec t (Token a)) as [->|Hne].
    + rewrite lookup_insert_eq in Hl. injection Hl as <-.
      exists v, a. rewrite lookup_insert_eq. auto.
    + rewrite (lookup_insert_ne _ _ _ _ Hne) in Hl.
      destruct (Hidx _ _ Hl) as [v0 [a0 [Hl0 [Hd0 Ht0]]]].
      exists v0, a0. repeat split; try assumption.
      rewrite lookup_insert_ne; [exact Hl0|].
      intros ->. congruence.
  - intros k' v' Hl.
    destruct (string_dec k' k) as [->|Hne].
    + rewrite lookup_insert_eq in Hl. injection Hl as <-.
      exists a. rewrite lookup_insert_eq. auto.
    + rewrite (lookup_insert_ne _ _ _ _ Hne) in Hl.
      destruct (Hprim _ _ Hl) as [a0 [Hd0 [He0 Hi0]]].
      exists a0. repeat split; try assumption.
      rewrite lookup_insert_ne; [exact Hi0|].
      intros Heq. rewrite Heq in Hi0. congruence.
Qed.





(** Committed operations keep both buckets in ascending key order. *)
Lemma reachable_ascending (tx : Tx) :
  reachable tx -> ascending (auths tx) /\ ascending (index tx).
Proof.
  induction 1 as [fl h|tx a tx' a' _ IH Hc
                  |tx id upd tx' a' _ IH Hu|tx id tx' _ IH Hd].
  - split; constructor.
  - destruct (CreateAuthorization_success _ _ _ _ Hc)
      as [->|[k [v [_ [_ [_ [_ ->]]]]]]]; [exact IH|].
    destruct IH as [Ha Hi]. simpl.
    split; now apply insert_ascending.
  - now apply UpdateAuthorization_never_ok in Hu.
  - rewrite DeleteAuthorization_noop in Hd. now injection Hd as <-.
Qed.


End Invariant.

(** ** Iteration *)

Section Iteration.
Context {E : Env}.

Lemma forEachAuthorization_loop_spec {S : Type} (fn : S -> Authorization -> S * bool)
  (cur : list (bytes * bytes)) :
  forall s : S,
  exists visited recs rest,
    cur = (visited ++ rest)%list /\
    Forall2 readFrom visited recs /\
    snd (forEachAuthorization_loop fn cur s) = run fn s recs /\
    visit_outcome fn s recs rest (fst (forEachAuthorization_loop fn cur s)).
Proof.
  induction cur as [|[k v] tl IH]; intros s; simpl.
  - exists [], [], [].
    split; [reflexivity|]. split; [constructor|]. split; [reflexivity|].
    left. auto.
  - destruct (json_Unmarshal v preallocated) as [a0|err] eqn:Hu.
    + rewrite (decodeAuthorization_target _ _ _ Hu).
      assert (Hd : readFrom (k, v) (normalized a0)).
      { exists a0. split; [exact Hu|]. now apply readAs_normalized. }
      remember (normalized a0) as a eqn:Ha. clear Ha.
      destruct (fn s a) as [s' c] eqn:Hfn. destruct c.
      * destruct (IH s') as [visited [recs [rest [Hcur [Hdec [Hrun Hout]]]]]].
        exists ((k, v) :: visited), (a :: recs), rest.
        split; [now rewrite Hcur|].
        split; [constructor; [exact Hd|exact Hdec]|].
        split; [simpl; now rewrite Hfn|].
        destruct Hout as [[He [Hr Hall]]|[[He [init [last [Hrecs [Hall Hlast]]]]]
                                         |[e [err' [rest' [Hr [Hde [He Hall]]]]]]]].
        -- left. simpl. rewrite Hfn. simpl. auto.
        -- right. left. split; [exact He|].
           exists (a :: init), last. simpl. rewrite Hfn. simpl.
           split; [now rewrite Hrecs|]. auto.
        -- right. right. exists e, err', rest'. simpl. rewrite Hfn. simpl. auto.
      * exists [(k, v)], [a], tl. simpl. rewrite Hfn. simpl.
        split; [reflexivity|].
        split; [constructor; [exact Hd|constructor]|].
        split; [reflexivity|].
        right. left. split; [reflexivity|].
        exists [], a. simpl. rewrite Hfn. auto.
    + rewrite (decodeAuthorization_error _ _ _ Hu).
      exists [], [], ((k, v) :: tl). simpl.
      split; [reflexivity|]. split; [constructor|]. split; [reflexivity|].
      right. right. exists (k, v), err, tl. auto.
Qed.

(** The entries a cursor on the primary bucket yields are the bucket's
    entries in their order, all of them when no hint is given or the store
    ignores hints, those the hint accepts otherwise. *)
Lemma bucket_Cursor_entries (tx : Tx) (pred : option CursorPredicateFunc)
  (cur : list (bytes * bytes)) :
  bucket_Cursor tx authBucket pred = Ok cur ->
  (cur = auths tx \/
   exists p, pred = Some p /\ usesHints tx = true /\
             cur = filter (fun kv => p (fst kv) (snd kv)) (auths tx)) /\
  (pred = None -> cur = auths tx) /\
  (ascending (auths tx) -> ascending cur).
Proof.
  unfold bucket_Cursor.
  destruct (failCursor (faults tx) authBucket); [discriminate|].
  destruct pred as [p|]; simpl.
  - destruct (usesHints tx); intros [= <-].
    + split; [right; eauto|]. split; [discriminate|].
      apply filter_ascending.
    + split; [now left|]. split; [discriminate|]. auto.
  - intros [= <-]. split; [now left|]. split; auto.
Qed.

(** C9.  [forEachAuthorization] walks the entries its cursor yields in one
    forward pass.  These are entries of the primary bucket in the bucket's
    order, ascending by key with each key once: all of them without a hint
    or in a store that ignores hints, those the hint accepts otherwise.  It
    takes a prefix [visited] of them, hands the callback, in that order,
    the record the JSON library decodes from each value (into the
    preallocated record, an empty status read as Active), and stops either
    at the end of the cursor, or right after the first call that answers
    false, or at the first entry the library fails to decode, whose error
    it returns; the entries after that point are not visited. *)
Theorem forEachAuthorization_visits {S : Type} (tx : Tx)
  (pred : option CursorPredicateFunc) (fn : S -> Authorization -> S * bool) (s : S)
  (cur : list (bytes * bytes)) :
  tx_Bucket tx authBucket = Ok authBucket ->
  bucket_Cursor tx authBucket pred = Ok cur ->
  (cur = auths tx \/
   exists p, pred = Some p /\ usesHints tx = true /\
             cur = filter (fun kv => p (fst kv) (snd kv)) (auths tx)) /\
  (pred = None -> cur = auths tx) /\
  (ascending (auths tx) -> ascending cur /\ NoDup (map fst cur)) /\
  exists visited recs rest,
    cur = (visited ++ rest)%list /\
    Forall2 readFrom visited recs /\
    snd (forEachAuthorization tx pred fn s) = run fn s recs /\
    visit_outcome fn s recs rest (fst (forEachAuthorization tx pred fn s)).
Proof.
  intros Hb Hc.
  destruct (bucket_Cursor_entries tx pred cur Hc) as [Hsub [Hall Hasc]].
  split; [exact Hsub|].
  split; [exact Hall|].
  split.
  { intros H. split; [now apply Hasc|].
    apply ascending_NoDup_keys. now apply Hasc. }
  unfold forEachAuthorization. rewrite Hb, Hc.
  apply forEachAuthorization_loop_spec.
Qed.

End Iteration.

(** ** The hint predicate and the authoritative filter *)

Section Filters.
Context {E : Env}.

Lemma hint_includes_on_failure (f : AuthorizationFilter.t) (p : CursorPredicateFunc)
  (k v : bytes) :
  authorizationsPredicateFn f = Some p ->
  extraction_fails f v ->
  p k v = true.
Proof.
  unfold authorizationsPredicateFn, extraction_fails.
  destruct f as [fid ftok forg fuser]; simpl.
  destruct fid as [id|].
  { intros [= <-] [err ->]. reflexivity. }
  destruct ftok as [tok|].
  { intros [= <-] [err ->]. reflexivity. }
  destruct forg as [org|], fuser as [user|]; intros [= <-] [Ho Hu].
  - destruct Ho as [e1 ->]; [discriminate|].
    destruct Hu as [got [ex [e2 ->]]]; [discriminate|].
    simpl. now rewrite orb_true_r.
  - destruct Ho as [e1 ->]; [discriminate|]. reflexivity.
  - destruct Hu as [got [ex [e2 ->]]]; [discriminate|].
    simpl. now rewrite orb_true_r.
Qed.

Lemma hint_excludes_absent_user (f : AuthorizationFilter.t) (p : CursorPredicateFunc)
  (k v : bytes) (got : influxdb_ID) :
  AuthorizationFilter.ID f = None ->
  AuthorizationFilter.Token f = None ->
  AuthorizationFilter.UserID f <> None ->
  authorizationsPredicateFn f = Some p ->
  jsonp_GetOptionalID v "userID" = (got, false, None) ->
  p k v = false.
Proof.
  unfold authorizationsPredicateFn.
  destruct f as [fid ftok forg fuser]; simpl.
  intros -> -> Hu. destruct fuser as [user|]; [|contradiction].
  intros [= <-] ->.
  rewrite andb_false_r. simpl. now rewrite andb_false_r.
Qed.

Lemma hint_no_false_negative (f : AuthorizationFilter.t) (p : CursorPredicateFunc)
  (k v : bytes) (a : Authorization) :
  authorizationsPredicateFn f = Some p ->
  extraction_agrees v a ->
  ~ asksZeroUser f ->
  filterAuthorizationsFn f a = true ->
  p k v = true.
Proof.
  unfold authorizationsPredicateFn, filterAuthorizationsFn, asksZeroUser.
  destruct f as [fid ftok forg fuser]; simpl.
  intros Hp [Hid [Htok [Horg Huser]]] Hz.
  destruct fid as [id|].
  { injection Hp as <-. intros Hf.
    destruct (jsonp_GetID v "id") as [got|] eqn:Hg; [|reflexivity].
    now rewrite (Hid got eq_refl). }
  destruct ftok as [tok|].
  { injection Hp as <-. intros Hf.
    destruct (jsonparser_Get v "token") as [got|] eqn:Hg; [|reflexivity].
    now rewrite (Htok got eq_refl). }
  assert (Horg' : forall org, N.eqb (OrgID a) org = true ->
            match jsonp_GetID v "orgID" with
            | Ok got => N.eqb got org
            | Err _ => true
            end = true).
  { intros org Ho.
    destruct (jsonp_GetID v "orgID") as [got|] eqn:Hg; [|reflexivity].
    now rewrite (Horg got eq_refl). }
  assert (Huser' : forall user, user <> 0%N -> N.eqb (UserID a) user = true ->
            (let '(got, exists_, err) := jsonp_GetOptionalID v "userID" in
             (N.eqb user got && exists_)
             || match err with Some _ => true | None => false end) = true).
  { intros user Hnz Hu.
    destruct (jsonp_GetOptionalID v "userID") as [[got ex] err] eqn:Hg.
    destruct err as [e|]; [now rewrite orb_true_r|].
    specialize (Huser got ex eq_refl). apply N.eqb_eq in Hu.
    destruct ex.
    - subst got. rewrite <- Hu, N.eqb_refl. reflexivity.
    - congruence. }
  destruct forg as [org|], fuser as [user|]; try discriminate Hp;
    injection Hp as <-; intros Hf.
  - apply andb_true_iff in Hf. destruct Hf as [Ho Hu].
    assert (Hnz : user <> 0%N) by (intros ->; apply Hz; auto).
    specialize (Huser' user Hnz Hu). specialize (Horg' org Ho).
    destruct (jsonp_GetOptionalID v "userID") as [[got ex] err].
    rewrite Horg'. simpl. exact Huser'.
  - now apply Horg'.
  - assert (Hnz : user <> 0%N) by (intros ->; apply Hz; auto).
    specialize (Huser' user Hnz Hf).
    destruct (jsonp_GetOptionalID v "userID") as [[got ex] err].
    simpl. exact Huser'.
Qed.

(** C5 (as amended).  The hint predicate includes a value whenever every
    extraction it performs on the value reports an error.  A userID field
    reported absent is not an error: under a filter that reaches the user
    position it excludes the value.  For a value whose extracted fields
    agree with its decoded record, and a filter that does not ask for the
    zero user, the hint accepts whatever the authoritative filter accepts. *)
Theorem hint_predicate_safety (f : AuthorizationFilter.t) (p : CursorPredicateFunc)
  (k v : bytes) :
  authorizationsPredicateFn f = Some p ->
  (extraction_fails f v -> p k v = true) /\
  (forall got,
     AuthorizationFilter.ID f = None ->
     AuthorizationFilter.Token f = None ->
     AuthorizationFilter.UserID f <> None ->
     jsonp_GetOptionalID v "userID" = (got, false, None) ->
     p k v = false) /\
  (forall a,
     extraction_agrees v a ->
     ~ asksZeroUser f ->
     filterAuthorizationsFn f a = true ->
     p k v = true).
Proof.
  intros Hp. split; [|split].
  - now apply hint_includes_on_failure.
  - intros got Hi Ht Hu Hg. now apply (hint_excludes_absent_user f p k v got).
  - intros a Ha Hz Hf. now apply (hint_no_false_negative f p k v a).
Qed.

End Filters.

(** ** Listing *)

Section Listing.
Context {E : Env}.

(** Iterating over the entries a hint lets through collects the records the
    filter accepts, as long as the hint rejects no entry whose record the
    filter accepts. *)
Lemma collect_loop (flt : Authorization -> bool) (hint : bytes * bytes -> bool)
  (entries : list (bytes * bytes)) (recs : list Authorization) :
  Forall2 (fun e a => decodesTo e a /\ (flt a = true -> hint e = true)) entries recs ->
  forall acc,
    forEachAuthorization_loop (collect flt) (filter hint entries) acc =
      (None, (acc ++ filter flt recs)%list).
Proof.
  induction 1 as [|e a entries recs [Hd Hh] _ IH]; intros acc; simpl.
  - now rewrite app_nil_r.
  - destruct (hint e) eqn:He; simpl.
    + destruct e as [k v]. unfold decodesTo in Hd. simpl in Hd. rewrite Hd.
      unfold collect at 1. destruct (flt a); simpl.
      * rewrite IH. now rewrite <- app_assoc.
      * apply IH.
    + destruct (flt a) eqn:Hf; [discriminate (Hh eq_refl)|].
      apply IH.
Qed.

Lemma filter_all {A : Type} (l : list A) : filter (fun _ => true) l = l.
Proof. induction l; simpl; congruence. Qed.

(** [ListAuthorizations] returns exactly the stored records that the
    authoritative filter accepts, in cursor order, whether or not the store
    uses the hint. *)
Lemma ListAuthorizations_filter (tx : Tx) (f : AuthorizationFilter.t)
  (recs : list Authorization) :
  tx_Bucket tx authBucket = Ok authBucket ->
  failCursor (faults tx) authBucket = None ->
  Forall2 (fun e a => decodesTo e a /\ extraction_agrees (snd e) a) (auths tx) recs ->
  ~ asksZeroUser f ->
  ListAuthorizations tx f = Ok (filter (filterAuthorizationsFn f) recs).
Proof.
  intros Hb Hc Hall Hz.
  unfold ListAuthorizations, forEachAuthorization. rewrite Hb.
  unfold bucket_Cursor. rewrite Hc. simpl.
  fold (collect (filterAuthorizationsFn f)).
  destruct (authorizationsPredicateFn f) as [p|] eqn:Hp.
  - destruct (usesHints tx).
    + rewrite (collect_loop _ (fun kv => p (fst kv) (snd kv)) _ recs); [reflexivity|].
      eapply Forall2_impl; [|exact Hall]. simpl.
      intros e a [Hd Ha]. split; [exact Hd|].
      intros Hf. now apply (hint_no_false_negative f p (fst e) (snd e) a).
    + rewrite <- (filter_all (auths tx)).
      rewrite (collect_loop _ (fun _ => true) _ recs); [reflexivity|].
      eapply Forall2_impl; [|exact Hall]. simpl. intros e a [Hd _]. auto.
  - rewrite <- (filter_all (auths tx)).
    rewrite (collect_loop _ (fun _ => true) _ recs); [reflexivity|].
    eapply Forall2_impl; [|exact Hall]. simpl. intros e a [Hd _]. auto.
Qed.

(** C6.  The authoritative filter decides by the first field that is set,
    in the order identifier, token, organization with user, organization,
    user, and accepts everything when none is set; the fields after the
    deciding one do not matter.  With the store holding A (id 1, token a,
    org 10, user 100) and then B (id 2, token b, org 10, user 200),
    [ListAuthorizations] returns A and B for the organization 10, A alone
    for organization 10 with user 100, A alone for the token a whatever
    organization and user are also set, and A and B for the empty filter. *)
Theorem filter_precedence :
  (forall id tok org user a,
     filterAuthorizationsFn (AuthorizationFilter.mk (Some id) tok org user) a
     = N.eqb (ID a) id) /\
  (forall tok org user a,
     filterAuthorizationsFn (AuthorizationFilter.mk None (Some tok) org user) a
     = String.eqb (Token a) tok) /\
  (forall org user a,
     filterAuthorizationsFn (AuthorizationFilter.mk None None (Some org) (Some user)) a
     = N.eqb (OrgID a) org && N.eqb (UserID a) user) /\
  (forall org a,
     filterAuthorizationsFn (AuthorizationFilter.mk None None (Some org) None) a
     = N.eqb (OrgID a) org) /\
  (forall user a,
     filterAuthorizationsFn (AuthorizationFilter.mk None None None (Some user)) a
     = N.eqb (UserID a) user) /\
  (forall a,
     filterAuthorizationsFn (AuthorizationFilter.mk None None None None) a = true) /\
  (forall tx A B kA vA kB vB,
     ID A = 1%N -> Token A = "a" -> OrgID A = 10%N -> UserID A = 100%N ->
     ID B = 2%N -> Token B = "b" -> OrgID B = 10%N -> UserID B = 200%N ->
     auths tx = [(kA, vA); (kB, vB)] ->
     tx_Bucket tx authBucket = Ok authBucket ->
     failCursor (faults tx) authBucket = None ->
     decodesTo (kA, vA) A -> extraction_agrees vA A ->
     decodesTo (kB, vB) B -> extraction_agrees vB B ->
     ListAuthorizations tx (AuthorizationFilter.mk None None (Some 10%N) None)
       = Ok [A; B] /\
     ListAuthorizations tx (AuthorizationFilter.mk None None (Some 10%N) (Some 100%N))
       = Ok [A] /\
     (forall org user,
        ListAuthorizations tx (AuthorizationFilter.mk None (Some "a") org user)
          = Ok [A]) /\
     ListAuthorizations tx (AuthorizationFilter.mk None None None None)
       = Ok [A; B]).
Proof.
  do 6 (split; [intros; reflexivity|]).
  intros tx A B kA vA kB vB HA1 HA2 HA3 HA4 HB1 HB2 HB3 HB4 Hst Hb Hc HdA HeA HdB HeB.
  assert (Hall : Forall2 (fun e a => decodesTo e a /\ extraction_agrees (snd e) a)
                         (auths tx) [A; B]).
  { rewrite Hst.
    constructor; [split; assumption|].
    constructor; [split; assumption|]. constructor. }
  assert (Hlist : forall f, ~ asksZeroUser f ->
            ListAuthorizations tx f = Ok (filter (filterAuthorizationsFn f) [A; B])).
  { intros f Hz. now apply ListAuthorizations_filter. }
  repeat split.
  - rewrite Hlist.
    + unfold filterAuthorizationsFn. simpl. now rewrite HA3, HB3.
    + intros [_ [_ H]]. discriminate.
  - rewrite Hlist.
    + unfold filterAuthorizationsFn. simpl. now rewrite HA3, HB3, HA4, HB4.
    + intros [_ [_ H]]. discriminate.
  - intros org user. rewrite Hlist.
    + unfold filterAuthorizationsFn. simpl. now rewrite HA2, HB2.
    + intros [_ [H _]]. discriminate.
  - rewrite Hlist.
    + reflexivity.
    + intros [_ [_ H]]. discriminate.
Qed.

End Listing.

(** ** The statements at concrete inputs *)

Section Examples.
#[local] Existing Instance Sample.sampleEnv.
Import Sample.

(** C7 as stated fails where the JSON library does not read a record back
    as written: [Lossy.recRaw] has the status Active and a token that is
    not valid UTF-8; its encoding decodes to [Lossy.recRead], whose token
    is the replacement character. *)
Lemma encode_decode_roundtrip_counterexample :
  validStatus (Status Lossy.recRaw) /\
  @encodeAuthorization Lossy.lossyEnv Lossy.recRaw = (Ok "doc-R", Lossy.recRaw) /\
  @decodeAuthorization Lossy.lossyEnv "doc-R" (Some zeroAuthorization)
    = Ok Lossy.recRead /\
  @decodeAuthorization Lossy.lossyEnv "doc-R" (Some preallocated)
    = Ok Lossy.recRead /\
  Token Lossy.recRead <> Token Lossy.recRaw.
Proof.
  split; [now left|].
  split; [reflexivity|]. split; [reflexivity|]. split; [reflexivity|].
  discriminate.
Defined.

(** C7 (as amended) at a record: [recA] with its status blanked is left as
    [recA] by the encoder, and the document produced decodes to [recA];
    the document of [recL], stored without a status, decodes to a record
    with the status Active; and [recBad], whose status is neither, is
    refused. *)
Lemma encode_decode_roundtrip_witness :
  encodeAuthorization (with_Status recA "") = (Ok "doc-A", recA) /\
  decodeAuthorization "doc-A" (Some zeroAuthorization) = Ok recA /\
  decodeAuthorization "doc-A" (Some preallocated) = Ok recA /\
  (exists a', decodeAuthorization "doc-L" (Some preallocated) = Ok a' /\
              readAs recL a') /\
  encodeAuthorization recBad =
    (Err (InfluxdbMsg EInvalid "unknown authorization status"), recBad).
Proof.
  destruct encode_decode_roundtrip as [H [H' H'']].
  assert (Hr : readAs (with_Status recA "") recA).
  { unfold readAs. simpl. auto 10. }
  assert (Hb : readsBack recA).
  { intros v Hm. exact (SampleFacts.roundtrip counterGen recA v Hm). }
  destruct (H (with_Status recA "") recA (or_intror (or_intror eq_refl)) Hr Hb)
    as [Hs [Hm Hd]].
  split; [reflexivity|].
  split; [exact (proj1 (Hd "doc-A" eq_refl))|].
  split; [exact (proj2 (Hd "doc-A" eq_refl))|].
  split; [exact (H' "doc-L" preallocated recL eq_refl)|].
  apply H''. intros [Hs'|[Hs'|Hs']]; discriminate Hs'.
Defined.

(** C1 at a record just created: the lookup by its identifier fails. *)
Lemma GetAuthorizationByID_stored_fails_witness :
  CreateAuthorization empty recA = (None, storeA, recA) /\
  GetAuthorizationByID storeA 1%N =
    Err (InfluxdbWrap (Some EInvalid) InvalidUnmarshalError).
Proof.
  split; [reflexivity|].
  exact (GetAuthorizationByID_stored_fails storeA 1%N keyA
           eq_refl eq_refl eq_refl).
Defined.

(** An update of the status of a stored record: the call fails. *)
Lemma UpdateAuthorization_stored_fails_witness :
  UpdateAuthorization storeA 1%N (AuthorizationUpdate.mk (Some Inactive) None) =
    (Err (InfluxdbWrap (Some ENotFound)
            (InfluxdbWrap (Some EInvalid) InvalidUnmarshalError)), storeA).
Proof.
  exact (UpdateAuthorization_stored_fails storeA 1%N keyA "doc-A" _
           eq_refl eq_refl eq_refl).
Defined.

(** C3 at a stored record: the delete succeeds and the record stays. *)
Lemma DeleteAuthorization_stored_remains_witness :
  DeleteAuthorization storeA 1%N = (None, storeA) /\
  bucket_Get (snd (DeleteAuthorization storeA 1%N)) authBucket keyA = Ok "doc-A" /\
  bucket_Get (snd (DeleteAuthorization storeA 1%N)) authIndex (authIndexKey "a") = Ok keyA /\
  GetAuthorizationByID (snd (DeleteAuthorization storeA 1%N)) 1%N =
    Err (InfluxdbWrap (Some EInvalid) InvalidUnmarshalError) /\
  GetAuthorizationByToken (snd (DeleteAuthorization storeA 1%N)) "a" =
    Err (InfluxdbWrap (Some EInvalid) InvalidUnmarshalError).
Proof.
  exact (DeleteAuthorization_stored_remains storeA 1%N "a" keyA "doc-A"
           eq_refl eq_refl eq_refl eq_refl eq_refl eq_refl).
Defined.

(** The store reached by creating [recA] and then [recB1] under the
    identifier of [recA]. *)
Lemma storeClash_reachable : reachable storeClash.
Proof.
  apply (reach_create storeA recB1 storeClash recB1); [|reflexivity].
  apply (reach_create empty recA storeA recA); [|reflexivity].
  apply reach_empty.
Qed.

(** The store holding [recA] is consistent. *)
Lemma storeA_consistent : consistent storeA.
Proof.
  exact (consistent_insert empty recA keyA "doc-A"
           (consistent_empty _ _) eq_refl eq_refl eq_refl eq_refl).
Qed.

(** C4 as stated fails twice.  A record with an indexed token and a status
    the codec rejects is refused with the Invalid error of the encoder, not
    with the generic token-creation error.  And in the store reached by
    creating [recA] and then [recB1] under the same identifier, the token
    of [recA] is still indexed, a further record with that token is refused
    with the generic error, and afterwards no primary entry holds a record
    with the token. *)
Lemma CreateAuthorization_duplicate_token_counterexample :
  (bucket_Get storeA authIndex (authIndexKey (Token recBad)) = Ok keyA /\
   CreateAuthorization storeA recBad =
     (Some (InfluxdbWrap (Some EInvalid)
              (InfluxdbMsg EInvalid "unknown authorization status")),
      storeA, recBad) /\
   fst (fst (CreateAuthorization storeA recBad)) <> Some ErrUnableToCreateToken) /\
  (reachable storeClash /\
   bucket_Get storeClash authIndex (authIndexKey (Token recA2)) = Ok keyA /\
   CreateAuthorization storeClash recA2 =
     (Some ErrUnableToCreateToken, storeClash, recA2) /\
   List.length
     (filter (carries (Token recA2))
             (auths (snd (fst (CreateAuthorization storeClash recA2))))) = 0).
Proof.
  split.
  - split; [reflexivity|]. split; [reflexivity|].
    simpl. discriminate.
  - split; [exact storeClash_reachable|].
    split; [reflexivity|]. split; reflexivity.
Defined.

(** C4 (as amended) at concrete inputs: a second record with the token of
    [recA] is refused with the generic error, and the store still has one
    index entry and one primary entry for the token; a failing index lookup
    comes back wrapped; a new token passes the check. *)
Lemma CreateAuthorization_duplicate_token_witness :
  CreateAuthorization storeA recA2 = (Some ErrUnableToCreateToken, storeA, recA2) /\
  List.length
    (filter (fun e : bytes * bytes => String.eqb "a" (fst e))
            (index (snd (fst (CreateAuthorization storeA recA2))))) = 1 /\
  List.length
    (filter (carries "a")
            (auths (snd (fst (CreateAuthorization storeA recA2))))) = 1 /\
  uniqueAuthToken storeFaulty recA2 =
    Some (UnexpectedIndexError (ExternalError "i/o error")) /\
  uniqueAuthToken storeA recB = None.
Proof.
  destruct CreateAuthorization_duplicate_token as [H1 [H2 H3]].
  destruct (H1 storeA recA2 recA2 "doc-A2" "0000000000000005" keyA)
    as [Hc [Hi Hp]]; try reflexivity.
  { left. split; reflexivity. }
  { left. reflexivity. }
  split; [exact Hc|]. split.
  { apply Hi. repeat constructor. }
  split.
  { apply Hp; [repeat constructor|exact storeA_consistent]. }
  split.
  - apply (H2 storeFaulty recA2 (ExternalError "i/o error")); reflexivity.
  - apply (H3 storeA recB); reflexivity.
Defined.

(** C10 at a record without identifier, with a generator that fails. *)
Lemma CreateAuthorization_generator_failure_witness :
  @CreateAuthorization (env failingGen) empty (with_ID recA 0%N) =
    (None, empty, with_ID recA 0%N).
Proof.
  apply (@CreateAuthorization_generator_failure (env failingGen) empty
           (with_ID recA 0%N) (ExternalError "unable to generate valid id"));
    reflexivity.
Defined.

(** C5 as stated fails: the document of [recN] has no userID field; the
    extractor reports it absent without error, and the hint of a user
    filter excludes the value.  With a filter for the zero user this is a
    false negative: the authoritative filter accepts the decoded record. *)
Lemma hint_predicate_safety_counterexample :
  jsonp_GetOptionalID "doc-N" "userID" = (0%N, false, None) /\
  hintOf (AuthorizationFilter.mk None None None (Some 100%N)) keyN "doc-N" = false /\
  decodeAuthorization "doc-N" (Some preallocated) = Ok recN /\
  filterAuthorizationsFn (AuthorizationFilter.mk None None None (Some 0%N)) recN = true /\
  hintOf (AuthorizationFilter.mk None None None (Some 0%N)) keyN "doc-N" = false.
Proof. repeat split. Defined.

(** C5 (as amended) at the stored document of [recA] under the filter for
    organization 10 and user 100: the hint accepts it, as the
    authoritative filter accepts [recA]. *)
Lemma hint_predicate_safety_witness :
  filterAuthorizationsFn
    (AuthorizationFilter.mk None None (Some 10%N) (Some 100%N)) recA = true /\
  hintOf (AuthorizationFilter.mk None None (Some 10%N) (Some 100%N)) keyA "doc-A" = true.
Proof.
  split; [reflexivity|].
  pose (f := AuthorizationFilter.mk None None (Some 10%N) (Some 100%N)).
  destruct (hint_predicate_safety f (hintOf f) keyA "doc-A" eq_refl) as [_ [_ H]].
  apply (H recA).
  - apply (SampleFacts.agrees counterGen). reflexivity.
  - intros [_ [_ Hu]]. discriminate.
  - reflexivity.
Defined.

(** C6 on the store holding [recA] and [recB]. *)
Lemma filter_precedence_witness :
  ListAuthorizations storeAB (AuthorizationFilter.mk None None (Some 10%N) None)
    = Ok [recA; recB] /\
  ListAuthorizations storeAB (AuthorizationFilter.mk None None (Some 10%N) (Some 100%N))
    = Ok [recA] /\
  ListAuthorizations storeAB
    (AuthorizationFilter.mk None (Some "a") (Some 99%N) (Some 200%N)) = Ok [recA] /\
  ListAuthorizations storeAB (AuthorizationFilter.mk None None None None)
    = Ok [recA; recB].
Proof.
  destruct filter_precedence as [_ [_ [_ [_ [_ [_ H]]]]]].
  destruct (H storeAB recA recB keyA "doc-A" keyB "doc-B")
    as [H1 [H2 [H3 H4]]]; try reflexivity.
  - apply (SampleFacts.agrees counterGen). reflexivity.
  - apply (SampleFacts.agrees counterGen). reflexivity.
  - split; [exact H1|]. split; [exact H2|]. split; [apply H3|exact H4].
Defined.



(** C9 on the store holding [recA] and [recB], with a callback that keeps
    the records it is handed.  Without a hint it is handed [recA] and then
    [recB]; when it answers false it is handed [recA] alone; under the hint
    of the filter for token b, in a store that skips on hints, it is handed
    [recB] alone, and the entries walked are those of the bucket that the
    hint accepts. *)
Lemma forEachAuthorization_visits_witness :
  forEachAuthorization storeAB None
    (fun (seen : list Authorization) a => ((seen ++ [a])%list, true)) []
    = (None, [recA; recB]) /\
  forEachAuthorization storeAB None
    (fun (seen : list Authorization) a => ((seen ++ [a])%list, false)) []
    = (None, [recA]) /\
  forEachAuthorization storeAB
    (authorizationsPredicateFn (AuthorizationFilter.mk None (Some "b") None None))
    (fun (seen : list Authorization) a => ((seen ++ [a])%list, true)) []
    = (None, [recB]) /\
  ascending (auths storeAB) /\
  exists visited recs rest,
    [(keyB, "doc-B")] = (visited ++ rest)%list /\
    Forall2 readFrom visited recs /\
    snd (forEachAuthorization storeAB
           (authorizationsPredicateFn (AuthorizationFilter.mk None (Some "b") None None))
           (fun (seen : list Authorization) a => ((seen ++ [a])%list, true)) [])
      = run (fun (seen : list Authorization) a => ((seen ++ [a])%list, true)) [] recs /\
    visit_outcome (fun (seen : list Authorization) a => ((seen ++ [a])%list, true))
      [] recs rest
      (fst (forEachAuthorization storeAB
              (authorizationsPredicateFn (AuthorizationFilter.mk None (Some "b") None None))
              (fun (seen : list Authorization) a => ((seen ++ [a])%list, true)) [])).
Proof.
  split; [reflexivity|]. split; [reflexivity|]. split; [reflexivity|].
  assert (Ha : ascending (auths storeAB)).
  { repeat constructor. }
  split; [exact Ha|].
  exact (proj2 (proj2 (proj2
           (forEachAuthorization_visits storeAB
              (authorizationsPredicateFn (AuthorizationFilter.mk None (Some "b") None None))
              (fun (seen : list Authorization) a => ((seen ++ [a])%list, true)) []
              [(keyB, "doc-B")] eq_refl eq_refl)))).
Defined.

End Examples.

(** * Further properties of the storage code *)

(** ** Buckets, codec and uniqueness *)

Section StoreMore.
Context {E : Env}.

(** X1.  [initializeAuths] succeeds exactly when the store hands out both
    buckets.  A failure of the primary bucket is returned as the store
    reported it; a failure of the index bucket comes back wrapped as
    [UnexpectedAuthIndexError]. *)
Theorem initializeAuths_outcome (tx : Tx) :
  (initializeAuths tx = None <->
   tx_Bucket tx authBucket = Ok authBucket /\ tx_Bucket tx authIndex = Ok authIndex) /\
  (forall msg, failBucket (faults tx) authBucket = Some msg ->
     initializeAuths tx = Some (ExternalError msg)) /\
  (forall msg, failBucket (faults tx) authBucket = None ->
     failBucket (faults tx) authIndex = Some msg ->
     initializeAuths tx = Some (UnexpectedAuthIndexError (ExternalError msg))).
Proof.
  unfold initializeAuths, authIndexBucket, tx_Bucket.
  destruct (failBucket (faults tx) authBucket) as [m1|];
    destruct (failBucket (faults tx) authIndex) as [m2|];
    (split; [split; [discriminate || auto|intros [H1 H2]; discriminate || auto]|]);
    split; intros; congruence.
Qed.

(** X2.  No record leaves the codec with an empty status: a successful
    decode yields a non-empty status whatever the stored bytes and the
    target are, and a successful encode leaves the caller's record with
    status Active or Inactive, all its other fields untouched. *)
Theorem codec_status_never_empty :
  (forall b target a,
     decodeAuthorization b target = Ok a -> Status a <> "") /\
  (forall r v,
     fst (encodeAuthorization r) = Ok v ->
     (Status (snd (encodeAuthorization r)) = Active \/
      Status (snd (encodeAuthorization r)) = Inactive) /\
     with_Status (snd (encodeAuthorization r)) (Status r) = r).
Proof.
  split.
  - intros b target a. unfold decodeAuthorization.
    destruct (Unmarshal b target) as [a0|e]; [|discriminate].
    destruct (String.eqb_spec (Status a0) "") as [He|Hne];
      intros [= <-]; [discriminate|exact Hne].
  - intros r v. unfold encodeAuthorization.
    destruct (String.eqb_spec (Status r) Active) as [Ha|Hna]; simpl.
    + intros _. split; [now left|]. now destruct r.
    + destruct (String.eqb_spec (Status r) Inactive) as [Hi|Hni]; simpl.
      * intros _. split; [now right|]. now destruct r.
      * destruct (String.eqb_spec (Status r) "") as [He|Hne]; simpl.
        -- intros _. split; [now left|]. now destruct r.
        -- discriminate.
Qed.

Lemma unique_outcomes (tx : Tx) (b : BucketName) (key : bytes) :
  unique tx b key = None \/
  unique tx b key = Some NotUniqueError \/
  exists err, unique tx b key = Some (UnexpectedIndexError err).
Proof.
  unfold unique.
  destruct (tx_Bucket tx b) as [b'|e]; [|eauto].
  destruct (bucket_Get tx b' key) as [v|e]; [auto|].
  destruct (IsNotFound e); eauto.
Qed.

(** X3.  [uniqueAuthToken] never lets the not-unique error out: its answer
    is nil, the generic [ErrUnableToCreateToken], or an index error
    wrapping the store's failure; and it answers the generic error exactly
    when [unique] found the token. *)
Theorem uniqueAuthToken_hides_conflict (tx : Tx) (a : Authorization) :
  uniqueAuthToken tx a <> Some NotUniqueError /\
  (uniqueAuthToken tx a = None \/
   uniqueAuthToken tx a = Some ErrUnableToCreateToken \/
   exists err, uniqueAuthToken tx a = Some (UnexpectedIndexError err)) /\
  (uniqueAuthToken tx a = Some ErrUnableToCreateToken <->
   unique tx authIndex (authIndexKey (Token a)) = Some NotUniqueError).
Proof.
  unfold uniqueAuthToken.
  destruct (unique_outcomes tx authIndex (authIndexKey (Token a)))
    as [H|[H|[e H]]]; rewrite H.
  - split; [discriminate|]. split; [auto|]. split; discriminate.
  - split; [discriminate|]. split; [auto|]. split; reflexivity.
  - split; [discriminate|]. split; [eauto|]. split; discriminate.
Qed.

(** X20.  Encoding is idempotent: encoding the record that an encoding
    left behind gives the same bytes (or the same error) and leaves the
    record as it is. *)
Theorem encodeAuthorization_idempotent (r : Authorization) :
  encodeAuthorization (snd (encodeAuthorization r)) = encodeAuthorization r.
Proof.
  unfold encodeAuthorization.
  destruct (String.eqb (Status r) Active || String.eqb (Status r) Inactive) eqn:H1;
    simpl.
  - now rewrite H1.
  - destruct (String.eqb (Status r) "") eqn:H2; simpl.
    + reflexivity.
    + now rewrite H1, H2.
Qed.

(** X21.  The errors of [GetAuthorizationByID].  An identifier that does
    not encode gives the fixed [ErrInvalidAuthID], whatever the encoder
    reported; a failure to open the primary bucket and a failure of the
    lookup other than not-found come back wrapped as
    [ErrInternalServiceError].  With the results of C1 these are all the
    outcomes there are. *)
Theorem GetAuthorizationByID_errors (tx : Tx) (id : influxdb_ID) :
  (forall err, ID_Encode id = Err err ->
     GetAuthorizationByID tx id = Err ErrInvalidAuthID) /\
  (forall k msg, ID_Encode id = Ok k ->
     failBucket (faults tx) authBucket = Some msg ->
     GetAuthorizationByID tx id = Err (ErrInternalServiceError (ExternalError msg))) /\
  (forall k msg, ID_Encode id = Ok k ->
     failBucket (faults tx) authBucket = None ->
     failGet (faults tx) authBucket k = Some msg ->
     GetAuthorizationByID tx id = Err (ErrInternalServiceError (ExternalError msg))) /\
  (GetAuthorizationByID tx id = Err ErrInvalidAuthID \/
   GetAuthorizationByID tx id = Err ErrAuthNotFound \/
   (exists msg, GetAuthorizationByID tx id =
                  Err (ErrInternalServiceError (ExternalError msg))) \/
   (exists v, GetAuthorizationByID tx id =
                Err (InfluxdbWrap (Some EInvalid) (nilTargetError v)))).
Proof.
  unfold GetAuthorizationByID, tx_Bucket, bucket_Get.
  split; [|split; [|split]].
  - intros err ->. reflexivity.
  - intros k msg -> ->. reflexivity.
  - intros k msg -> -> ->. reflexivity.
  - destruct (ID_Encode id) as [k|e]; [|now left].
    destruct (failBucket (faults tx) authBucket) as [m|]; [eauto|].
    destruct (failGet (faults tx) authBucket k) as [m|]; simpl; [eauto|].
    destruct (lookup k (auths tx)) as [v|]; simpl; [|auto].
    right. right. right. exists v. reflexivity.
Qed.

End StoreMore.

(** ** Lookup by token *)

Section ByToken.
Context {E : Env}.

(** X4.  [GetAuthorizationByToken] reports a token the index does not hold
    as the Not-Found error built on the spot, a failure to open the index
    bucket as [UnexpectedAuthIndexError], and an indexed key that does not
    decode as the Invalid error of the decoder; it never returns a record. *)
Theorem GetAuthorizationByToken_outcomes (tx : Tx) (token : string) :
  (tx_Bucket tx authIndex = Ok authIndex ->
   bucket_Get tx authIndex (authIndexKey token) = Err ErrKeyNotFound ->
   GetAuthorizationByToken tx token =
     Err (InfluxdbMsg ENotFound "authorization not found")) /\
  (forall msg, failBucket (faults tx) authIndex = Some msg ->
     GetAuthorizationByToken tx token =
       Err (UnexpectedAuthIndexError (ExternalError msg))) /\
  (forall idKey err,
     tx_Bucket tx authIndex = Ok authIndex ->
     bucket_Get tx authIndex (authIndexKey token) = Ok idKey ->
     ID_Decode idKey = Err err ->
     GetAuthorizationByToken tx token = Err (InfluxdbWrap (Some EInvalid) err)) /\
  (forall a, GetAuthorizationByToken tx token <> Ok a).
Proof.
  unfold GetAuthorizationByToken, authIndexBucket.
  split; [|split; [|split]].
  - intros Hb Hg. now rewrite Hb, Hg.
  - intros msg Hf. unfold tx_Bucket. now rewrite Hf.
  - intros idKey err Hb Hg Hd. now rewrite Hb, Hg, Hd.
  - intros a.
    destruct (tx_Bucket tx authIndex) as [idx|e]; [|discriminate].
    destruct (bucket_Get tx idx (authIndexKey token)) as [idKey|e].
    + destruct (ID_Decode idKey) as [id|e]; [|discriminate].
      apply GetAuthorizationByID_never_ok.
    + destruct (IsNotFound e); [discriminate|].
      destruct (ID_Decode "") as [id|e']; [|discriminate].
      apply GetAuthorizationByID_never_ok.
Qed.

(** X5.  When the index lookup itself fails in the store, the failure is
    not reported: the code goes on to decode the nil key the lookup
    returned, and answers the Invalid error of the decoder when that key
    does not decode, the result of the lookup by identifier otherwise. *)
Theorem GetAuthorizationByToken_store_failure (tx : Tx) (token msg : string) :
  tx_Bucket tx authIndex = Ok authIndex ->
  failGet (faults tx) authIndex (authIndexKey token) = Some msg ->
  GetAuthorizationByToken tx token =
    match ID_Decode "" with
    | Err err => Err (InfluxdbWrap (Some EInvalid) err)
    | Ok id => GetAuthorizationByID tx id
    end.
Proof.
  intros Hb Hf.
  unfold GetAuthorizationByToken, authIndexBucket. rewrite Hb.
  unfold bucket_Get. rewrite Hf. reflexivity.
Qed.

End ByToken.

(** ** Creation *)

Section CreateMore.
Context {E : Env}.

Lemma identified_step (tx : Tx) (a a1 : Authorization) :
  identified tx a a1 ->
  (if negb (ID_Valid (ID a))
   then match generateSafeID tx authBucket with
        | Ok id => Some (with_ID a id)
        | Err _ => None
        end
   else Some a) = Some a1.
Proof.
  intros [[Hv ->]|[Hv [id [Hgen ->]]]]; rewrite Hv; simpl;
    [reflexivity|now rewrite Hgen].
Qed.

Lemma identified_fields (tx : Tx) (a a1 : Authorization) :
  identified tx a a1 ->
  Token a1 = Token a /\ Status a1 = Status a.
Proof.
  intros [[_ ->]|[_ [id [_ ->]]]]; split; reflexivity.
Qed.

Lemma normalized_fields (a : Authorization) :
  Token (normalized a) = Token a /\ ID (normalized a) = ID a.
Proof.
  unfold normalized. destruct (String.eqb (Status a) ""); split; reflexivity.
Qed.

(** X6.  A creation that passes every step returns nil, hands back the
    record with its identifier assigned and its status normalized, and
    leaves the transaction with exactly two more facts: the index maps the
    token to the encoded identifier, and the primary bucket maps the
    encoded identifier to the serialized record.  Every other key of either
    bucket reads as before. *)
Theorem CreateAuthorization_stores (tx : Tx) (a a1 : Authorization) (v k : bytes) :
  identified tx a a1 ->
  validStatus (Status a) ->
  json_Marshal (normalized a1) = Ok v ->
  ID_Encode (ID a1) = Ok k ->
  tx_Bucket tx authIndex = Ok authIndex ->
  tx_Bucket tx authBucket = Ok authBucket ->
  bucket_Get tx authIndex (authIndexKey (Token a)) = Err ErrKeyNotFound ->
  failPut (faults tx) authIndex (authIndexKey (Token a)) = None ->
  failPut (faults tx) authBucket k = None ->
  exists tx',
    CreateAuthorization tx a = (None, tx', normalized a1) /\
    lookup (Token a) (index tx') = Some k /\
    lookup k (auths tx') = Some v /\
    (forall t, t <> Token a -> lookup t (index tx') = lookup t (index tx)) /\
    (forall k', k' <> k -> lookup k' (auths tx') = lookup k' (auths tx)) /\
    faults tx' = faults tx /\ usesHints tx' = usesHints tx.
Proof.
  intros Hid Hst Hm He Hi Hb Hg Hp1 Hp2.
  destruct (identified_fields _ _ _ Hid) as [Htok Hst1].
  destruct (normalized_fields a1) as [Htokn Hidn].
  exists (mkTx (insert k v (auths tx)) (insert (Token a) k (index tx))
               (faults tx) (usesHints tx)).
  split.
  - unfold CreateAuthorization. rewrite (identified_step _ _ _ Hid).
    rewrite encodeAuthorization_valid by (now rewrite Hst1).
    rewrite Hm, Hidn, He. unfold authIndexBucket. rewrite Hi.
    unfold uniqueAuthToken. rewrite Htokn, Htok.
    rewrite (unique_absent tx authIndex _ Hi Hg). rewrite Hb.
    unfold bucket_Put. rewrite Hp1. simpl. rewrite Hp2. reflexivity.
  - simpl. unfold authIndexKey in *.
    split; [apply lookup_insert_eq|]. split; [apply lookup_insert_eq|].
    split; [intros t Ht; now apply lookup_insert_ne|].
    split; [intros k' Hk; now apply lookup_insert_ne|]. auto.
Qed.

(** X7.  A creation that returns an error has not touched the primary
    bucket.  It has not touched the index either, except in one case: when
    the final write to the primary bucket fails, the index entry written
    just before it is still in the transaction, and the error is the
    wrapper without a code. *)
Theorem CreateAuthorization_failure_leaves (tx tx' : Tx) (a a' : Authorization)
  (err : error) :
  CreateAuthorization tx a = (Some err, tx', a') ->
  auths tx' = auths tx /\
  (tx' = tx \/
   exists k cause,
     err = InfluxdbWrap None cause /\
     ID_Encode (ID a') = Ok k /\
     index tx' = insert (Token a') k (index tx)).
Proof.
  unfold CreateAuthorization.
  destruct (if negb (ID_Valid (ID a)) then _ else _) as [a1|]; [|discriminate].
  destruct (encodeAuthorization a1) as [r a2].
  destruct r as [v|e]; [|intros [= <- <- <-]; auto].
  destruct (ID_Encode (ID a2)) as [k|e] eqn:He; [|intros [= <- <- <-]; auto].
  destruct (authIndexBucket tx) as [idx|e] eqn:Hidx; [|intros [= <- <- <-]; auto].
  assert (idx = authIndex).
  { unfold authIndexBucket in Hidx.
    destruct (tx_Bucket tx authIndex) as [b0|e0] eqn:Hb0; [|discriminate].
    apply tx_Bucket_inv in Hb0. congruence. }
  subst idx.
  destruct (uniqueAuthToken tx a2) as [e|]; [intros [= <- <- <-]; auto|].
  destruct (tx_Bucket tx authBucket) as [b|e] eqn:Hb; [|intros [= <- <- <-]; auto].
  apply tx_Bucket_inv in Hb. subst b.
  unfold bucket_Put at 1.
  destruct (failPut (faults tx) authIndex _); [intros [= <- <- <-]; auto|].
  unfold bucket_Put. simpl.
  destruct (failPut (faults tx) authBucket k); [|discriminate].
  intros [= <- <- <-]. simpl. split; [reflexivity|].
  right. exists k, (ExternalError s). unfold authIndexKey. auto.
Qed.

(** X8.  Validation comes after the identifier step: a record with an
    invalid identifier and a status the codec rejects is refused with the
    Invalid error and nothing is written, but the caller's record comes
    back carrying the identifier the generator produced. *)
Theorem CreateAuthorization_rejected_keeps_generated_id (tx : Tx)
  (a : Authorization) (id : influxdb_ID) :
  ID_Valid (ID a) = false ->
  generateSafeID tx authBucket = Ok id ->
  ~ validStatus (Status a) ->
  CreateAuthorization tx a =
    (Some (InfluxdbWrap (Some EInvalid)
             (InfluxdbMsg EInvalid "unknown authorization status")),
     tx, with_ID a id).
Proof.
  intros Hv Hg Hs. unfold CreateAuthorization. rewrite Hv, Hg. simpl.
  now rewrite encodeAuthorization_invalid.
Qed.

(** X9.  Creating twice under one token: once a creation has indexed its
    token, a second creation whose record carries the same token and
    reaches the uniqueness check is refused with the generic error and
    changes nothing, whatever else the second record holds. *)
Theorem CreateAuthorization_twice (tx tx' : Tx) (a a' b b1 : Authorization)
  (v : bytes) (k : bytes) :
  CreateAuthorization tx a = (None, tx', a') ->
  tx' <> tx ->
  Token b = Token a' ->
  identified tx' b b1 ->
  validStatus (Status b) ->
  json_Marshal (normalized b1) = Ok v ->
  ID_Encode (ID b1) = Ok k ->
  failGet (faults tx') authIndex (authIndexKey (Token b)) = None ->
  CreateAuthorization tx' b = (Some ErrUnableToCreateToken, tx', normalized b1).
Proof.
  intros Hc Hne Htok Hid Hst Hm He Hf.
  assert (Hopen : tx_Bucket tx authIndex = Ok authIndex).
  { unfold CreateAuthorization in Hc.
    destruct (if negb (ID_Valid (ID a)) then _ else _) as [a1|];
      [|injection Hc as <- _; contradiction].
    destruct (encodeAuthorization a1) as [r a2].
    destruct r as [v0|e]; [|discriminate].
    destruct (ID_Encode (ID a2)) as [k0|e]; [|discriminate].
    unfold authIndexBucket in Hc.
    destruct (tx_Bucket tx authIndex) as [b0|e0] eqn:Hb0; [|discriminate].
    apply tx_Bucket_inv in Hb0 as Hb1. now subst b0. }
  destruct (CreateAuthorization_success _ _ _ _ Hc)
    as [->|[k0 [v0 [_ [_ [_ [_ Htx]]]]]]]; [contradiction|].
  assert (Hopen' : tx_Bucket tx' authIndex = Ok authIndex).
  { rewrite Htx. exact Hopen. }
  assert (Hget : bucket_Get tx' authIndex (authIndexKey (Token b)) = Ok k0).
  { rewrite Htx in Hf |- *. simpl in Hf. unfold bucket_Get. simpl. rewrite Hf.
    unfold authIndexKey. rewrite Htok. now rewrite lookup_insert_eq. }
  destruct (identified_fields _ _ _ Hid) as [Htb Hsb].
  destruct (normalized_fields b1) as [Htokn Hidn].
  unfold CreateAuthorization. rewrite (identified_step _ _ _ Hid).
  rewrite encodeAuthorization_valid by (now rewrite Hsb).
  rewrite Hm, Hidn, He. unfold authIndexBucket. rewrite Hopen'.
  unfold uniqueAuthToken. rewrite Htokn, Htb.
  now rewrite (unique_present tx' authIndex _ k0 Hopen' Hget).
Qed.

End CreateMore.

(** ** Listing, again *)

Section ListingMore.
Context {E : Env}.

(** X10.  The hint never changes what a listing returns.  When every
    stored value decodes and its extracted fields agree with its record,
    [ListAuthorizations] returns the records the authoritative filter
    accepts, in cursor order, the same list whether the store skips on the
    hint or ignores it; a record is in the result exactly when it is stored
    and the filter accepts it. *)
Theorem ListAuthorizations_hint_transparent (tx : Tx) (f : AuthorizationFilter.t)
  (recs : list Authorization) :
  tx_Bucket tx authBucket = Ok authBucket ->
  failCursor (faults tx) authBucket = None ->
  Forall2 (fun e a => decodesTo e a /\ extraction_agrees (snd e) a) (auths tx) recs ->
  ~ asksZeroUser f ->
  (forall h, ListAuthorizations (with_hints tx h) f =
             Ok (filter (filterAuthorizationsFn f) recs)) /\
  (forall h l, ListAuthorizations (with_hints tx h) f = Ok l ->
     forall a, In a l <-> In a recs /\ filterAuthorizationsFn f a = true).
Proof.
  intros Hb Hc Hall Hz.
  assert (H : forall h, ListAuthorizations (with_hints tx h) f =
                        Ok (filter (filterAuthorizationsFn f) recs)).
  { intros h. apply ListAuthorizations_filter; auto. }
  split; [exact H|].
  intros h l Hl a. rewrite H in Hl. injection Hl as <-.
  apply filter_In.
Qed.

Lemma collect_loop_error (flt : Authorization -> bool)
  (good : list (bytes * bytes)) (recs : list Authorization)
  (k v : bytes) (rest : list (bytes * bytes)) (err : error) :
  Forall2 decodesTo good recs ->
  decodeAuthorization v (Some preallocated) = Err err ->
  forall acc,
    forEachAuthorization_loop (collect flt) (good ++ (k, v) :: rest) acc =
      (Some err, (acc ++ filter flt recs)%list).
Proof.
  intros Hg Hd. induction Hg as [|e a good recs Hda _ IH]; intros acc; simpl.
  - rewrite Hd. now rewrite app_nil_r.
  - destruct e as [k0 v0]. unfold decodesTo in Hda. simpl in Hda. rewrite Hda.
    unfold collect at 1. destruct (flt a); simpl.
    + rewrite IH. now rewrite <- app_assoc.
    + apply IH.
Qed.

(** X11.  One stored value that does not decode makes the whole listing
    fail: when the cursor yields every entry (no hint, or a store that
    ignores hints), [ListAuthorizations] returns the decode error of the
    first such value and none of the records before it. *)
Theorem ListAuthorizations_corrupt_entry (tx : Tx) (f : AuthorizationFilter.t)
  (good : list (bytes * bytes)) (recs : list Authorization)
  (k v : bytes) (rest : list (bytes * bytes)) (err : error) :
  tx_Bucket tx authBucket = Ok authBucket ->
  failCursor (faults tx) authBucket = None ->
  usesHints tx = false \/ authorizationsPredicateFn f = None ->
  auths tx = (good ++ (k, v) :: rest)%list ->
  Forall2 decodesTo good recs ->
  decodeAuthorization v (Some preallocated) = Err err ->
  ListAuthorizations tx f = Err err.
Proof.
  intros Hb Hc Hh Ha Hg Hd.
  unfold ListAuthorizations, forEachAuthorization. rewrite Hb.
  assert (Hcur : bucket_Cursor tx authBucket (authorizationsPredicateFn f) =
                 Ok (auths tx)).
  { unfold bucket_Cursor. rewrite Hc. simpl.
    destruct Hh as [Hh|Hh]; rewrite Hh;
      [now destruct (authorizationsPredicateFn f)|reflexivity]. }
  rewrite Hcur, Ha.
  fold (collect (filterAuthorizationsFn f)).
  now rewrite (collect_loop_error _ good recs k v rest err Hg Hd).
Qed.

(** X12.  A store failure comes back from [ListAuthorizations] exactly as
    the store reported it, for the bucket as for the cursor, and an empty
    primary bucket gives the empty list under every filter. *)
Theorem ListAuthorizations_edges (tx : Tx) (f : AuthorizationFilter.t) :
  (forall msg, failBucket (faults tx) authBucket = Some msg ->
     ListAuthorizations tx f = Err (ExternalError msg)) /\
  (forall msg, failBucket (faults tx) authBucket = None ->
     failCursor (faults tx) authBucket = Some msg ->
     ListAuthorizations tx f = Err (ExternalError msg)) /\
  (failBucket (faults tx) authBucket = None ->
   failCursor (faults tx) authBucket = None ->
   auths tx = [] ->
   ListAuthorizations tx f = Ok []).
Proof.
  unfold ListAuthorizations, forEachAuthorization, tx_Bucket, bucket_Cursor.
  split; [|split].
  - intros msg ->. reflexivity.
  - intros msg -> ->. reflexivity.
  - intros -> -> Ha. simpl. rewrite Ha.
    destruct (authorizationsPredicateFn f) as [p|]; [|reflexivity].
    destruct (usesHints tx); reflexivity.
Qed.






End ListingMore.

(** ** The statements of update and delete after the load *)

Section Loaded.
Context {E : Env}.

(** X14.  The statements of [UpdateAuthorization] that follow the load,
    when they succeed, return the record with the status and description of
    the update where present (the new status is not validated), the
    updated-at time set to now, and identifier, token, organization, user,
    permissions and created-at as loaded.  What they write is something
    else: the index entry of the unchanged token, and under the encoded
    identifier the serialization made before the update was applied. *)
Theorem UpdateAuthorization_loaded_effect (tx tx' : Tx) (a a' : Authorization)
  (upd : AuthorizationUpdate.t) :
  UpdateAuthorization_loaded tx a upd = (Ok a', tx') ->
  (ID a' = ID a /\ Token a' = Token a /\ OrgID a' = OrgID a /\
   UserID a' = UserID a /\ Permissions a' = Permissions a /\
   CreatedAt a' = CreatedAt a /\ UpdatedAt a' = time_Now) /\
  Status a' = match AuthorizationUpdate.Status upd with
              | Some s => s
              | None => Status (normalized a)
              end /\
  Description a' = match AuthorizationUpdate.Description upd with
                   | Some d => d
                   | None => Description a
                   end /\
  exists k v,
    ID_Encode (ID a) = Ok k /\
    json_Marshal (normalized a) = Ok v /\
    lookup k (auths tx') = Some v /\
    lookup (Token a) (index tx') = Some k.
Proof.
  unfold UpdateAuthorization_loaded.
  destruct (encodeAuthorization a) as [r a0] eqn:Henc.
  destruct r as [v|e]; [|discriminate].
  destruct (encodeAuthorization_ok a v) as [_ [Hm Hs]]; [now rewrite Henc|].
  rewrite Henc in Hs. simpl in Hs. subst a0.
  assert (Hx : ID (normalized a) = ID a /\ Token (normalized a) = Token a /\
               OrgID (normalized a) = OrgID a /\ UserID (normalized a) = UserID a /\
               Permissions (normalized a) = Permissions a /\
               CreatedAt (normalized a) = CreatedAt a /\
               Description (normalized a) = Description a).
  { unfold normalized. destruct (String.eqb (Status a) ""); simpl; auto 10. }
  destruct Hx as [Hx1 [Hx2 [Hx3 [Hx4 [Hx5 [Hx6 Hx7]]]]]].
  remember (normalized a) as x eqn:Hxdef.
  destruct (ID_Encode (ID x)) as [k|e] eqn:He; [|discriminate].
  destruct (authIndexBucket tx) as [idx|e] eqn:Hidx; [|discriminate].
  assert (idx = authIndex).
  { unfold authIndexBucket in Hidx.
    destruct (tx_Bucket tx authIndex) as [b0|e0] eqn:Hb0; [|discriminate].
    apply tx_Bucket_inv in Hb0. congruence. }
  subst idx.
  unfold bucket_Put at 1.
  destruct (failPut (faults tx) authIndex _); [discriminate|].
  destruct (tx_Bucket _ authBucket) as [b|e] eqn:Hb; [|discriminate].
  apply tx_Bucket_inv in Hb. subst b.
  unfold bucket_Put. simpl.
  destruct (failPut (faults tx) authBucket k); [discriminate|].
  intros [= <- <-]. simpl.
  rewrite Hx1 in He.
  split.
  { destruct (AuthorizationUpdate.Status upd), (AuthorizationUpdate.Description upd);
      simpl; auto 10. }
  split.
  { destruct (AuthorizationUpdate.Status upd), (AuthorizationUpdate.Description upd);
      reflexivity. }
  split.
  { destruct (AuthorizationUpdate.Status upd), (AuthorizationUpdate.Description upd);
      simpl; auto. }
  exists k, v. rewrite lookup_insert_eq.
  split; [exact He|]. split; [exact Hm|]. split; [reflexivity|].
  unfold authIndexKey.
  destruct (AuthorizationUpdate.Status upd), (AuthorizationUpdate.Description upd);
    simpl; rewrite Hx2; apply lookup_insert_eq.
Qed.

(** X15.  The statements of [DeleteAuthorization] that follow the load,
    when they succeed, remove the index entry of the loaded record's token
    and the primary entry of the identifier and leave every other key of
    both buckets as it was.  When they fail, the primary bucket is
    untouched, and the index is untouched unless the index entry was
    already removed before the removal from the primary bucket failed. *)
Theorem DeleteAuthorization_loaded_effect (tx tx' : Tx) (id : influxdb_ID)
  (a : Authorization) (r : option error) :
  DeleteAuthorization_loaded tx id a = (r, tx') ->
  match r with
  | None =>
      exists k,
        ID_Encode id = Ok k /\
        lookup (Token a) (index tx') = None /\
        lookup k (auths tx') = None /\
        (forall t, t <> Token a -> lookup t (index tx') = lookup t (index tx)) /\
        (forall k', k' <> k -> lookup k' (auths tx') = lookup k' (auths tx))
  | Some err =>
      auths tx' = auths tx /\
      (index tx' = index tx \/
       (index tx' = remove (Token a) (index tx) /\
        exists cause, err = ErrInternalServiceError cause))
  end.
Proof.
  unfold DeleteAuthorization_loaded.
  destruct (ID_Encode id) as [k|e]; [|intros [= <- <-]; auto].
  destruct (authIndexBucket tx) as [idx|e] eqn:Hidx; [|intros [= <- <-]; auto].
  assert (idx = authIndex).
  { unfold authIndexBucket in Hidx.
    destruct (tx_Bucket tx authIndex) as [b0|e0] eqn:Hb0; [|discriminate].
    apply tx_Bucket_inv in Hb0. congruence. }
  subst idx.
  destruct (tx_Bucket tx authBucket) as [b|e] eqn:Hb; [|intros [= <- <-]; auto].
  apply tx_Bucket_inv in Hb. subst b.
  unfold bucket_Delete at 1.
  destruct (failDelete (faults tx) authIndex (Token a)); [intros [= <- <-]; auto|].
  unfold bucket_Delete. simpl.
  destruct (failDelete (faults tx) authBucket k); intros [= <- <-]; simpl.
  - split; [reflexivity|]. right. split; [reflexivity|]. eauto.
  - exists k. split; [reflexivity|].
    split; [apply lookup_remove_eq|]. split; [apply lookup_remove_eq|].
    split; intros x Hx; now apply lookup_remove_ne.
Qed.

End Loaded.

(** * Properties of the configuration-override parser *)

Module OverrideFacts.
Import Override.

Lemma map_get_set_eq {V : Type} (k : string) (v : V) (m : gomap V) :
  map_get k (map_set k v m) = Some v.
Proof.
  induction m as [|[k' v'] m IH]; simpl.
  - now rewrite String.eqb_refl.
  - destruct (String.eqb k k') eqn:Ek; simpl.
    + now rewrite String.eqb_refl.
    + now rewrite Ek.
Qed.

Lemma map_get_set_ne {V : Type} (k k' : string) (v : V) (m : gomap V) :
  k' <> k -> map_get k' (map_set k v m) = map_get k' m.
Proof.
  intros Hne. induction m as [|[k0 v0] m IH]; simpl.
  - destruct (String.eqb_spec k' k); [contradiction|reflexivity].
  - destruct (String.eqb_spec k k0) as [<-|Hk]; simpl.
    + destruct (String.eqb_spec k' k); [contradiction|reflexivity].
    + now rewrite IH.
Qed.

Lemma Split_nonempty (sep : ascii) (s : string) : strings_Split sep s <> [].
Proof.
  destruct s as [|c s]; simpl; [discriminate|].
  destruct (Ascii.eqb c sep); [discriminate|].
  destruct (strings_Split sep s); discriminate.
Qed.

Lemma Split_length (sep : ascii) (s : string) :
  List.length (strings_Split sep s) = S (count sep s).
Proof.
  induction s as [|c s IH]; simpl; [reflexivity|].
  destruct (Ascii.eqb c sep); simpl; [now rewrite IH|].
  destruct (strings_Split sep s); simpl in *; [discriminate|exact IH].
Qed.

Lemma Split_plain (sep : ascii) (s : string) :
  count sep s = 0 -> strings_Split sep s = [s].
Proof.
  induction s as [|c s IH]; simpl; [reflexivity|].
  destruct (Ascii.eqb c sep); simpl; [discriminate|].
  intros H. now rewrite (IH H).
Qed.

Lemma Split_app (sep : ascii) (s1 s2 : string) :
  count sep s1 = 0 ->
  strings_Split sep (s1 ++ String sep s2) = s1 :: strings_Split sep s2.
Proof.
  induction s1 as [|c s1 IH]; simpl.
  - intros _. now rewrite Ascii.eqb_refl.
  - destruct (Ascii.eqb c sep); simpl; [discriminate|].
    intros H. now rewrite (IH H).
Qed.

Lemma count_app (c : ascii) (s1 s2 : string) :
  count c (s1 ++ s2) = count c s1 + count c s2.
Proof.
  induction s1 as [|c1 s1 IH]; simpl; [reflexivity|].
  rewrite IH. now rewrite Nat.add_assoc.
Qed.

(** A piece is a pair exactly when it holds one colon. *)
Lemma Split_two (p : string) :
  (exists k v, strings_Split Colon p = [k; v]) <-> count Colon p = 1.
Proof.
  split.
  - intros [k [v H]]. pose proof (Split_length Colon p) as Hl.
    rewrite H in Hl. simpl in Hl. congruence.
  - intros H. pose proof (Split_length Colon p) as Hl. rewrite H in Hl.
    destruct (strings_Split Colon p) as [|k [|v [|x l]]]; try discriminate.
    eauto.
Qed.

Lemma parse_pairs_ok (s : string) (pairs : list string) :
  forall m,
    (exists m', parse_pairs s pairs m = inl m') <->
    Forall (fun p => count Colon p = 1) pairs.
Proof.
  induction pairs as [|p pairs IH]; intros m; simpl.
  - split; [constructor|eauto].
  - split.
    + intros [m' H].
      destruct (strings_Split Colon p) as [|k [|v [|x l]]] eqn:Hs; try discriminate.
      constructor.
      * apply Split_two. eauto.
      * apply (IH (map_set k v m)). eauto.
    + intros H. inversion H as [|? ? Hp Hrest]; subst.
      apply Split_two in Hp. destruct Hp as [k [v ->]].
      now apply IH.
Qed.

Lemma parse_pairs_error (s : string) (pairs : list string) :
  forall m err, parse_pairs s pairs m = inr err -> err = errMalformed s.
Proof.
  induction pairs as [|p pairs IH]; intros m err; simpl; [discriminate|].
  destruct (strings_Split Colon p) as [|k [|v [|x l]]];
    try (now intros [= <-]).
  apply IH.
Qed.

Lemma parse_unfold (s : string) :
  parse s = parse_pairs s (strings_Split Comma s) [].
Proof.
  unfold parse. rewrite Split_length. reflexivity.
Qed.

Lemma Split_trailing (sep : ascii) (s : string) :
  exists l, l <> [] /\
    strings_Split sep (s ++ String sep EmptyString) = (l ++ [EmptyString])%list.
Proof.
  induction s as [|c s [l [Hl IH]]]; simpl.
  - rewrite Ascii.eqb_refl. exists [EmptyString]. split; [discriminate|reflexivity].
  - destruct (Ascii.eqb c sep).
    + exists (EmptyString :: l). split; [discriminate|]. now rewrite IH.
    + rewrite IH. destruct l as [|p l]; [contradiction|].
      exists (String c p :: l). split; [discriminate|reflexivity].
Qed.

Lemma parse_error_or_ok (s : string) :
  ~ Forall (fun p => count Colon p = 1) (strings_Split Comma s) ->
  parse s = inr (errMalformed s).
Proof.
  intros H. destruct (parse s) as [m|err] eqn:Hp.
  - exfalso. apply H. rewrite parse_unfold in Hp.
    apply (parse_pairs_ok s _ []). eauto.
  - f_equal. rewrite parse_unfold in Hp. now apply parse_pairs_error in Hp.
Qed.

(** X16.  [parse] accepts exactly the strings in which every piece between
    commas holds exactly one colon, and its only error is
    [errMalformed] of the whole string.  The guard on an empty list of
    pairs never fires, as splitting always yields at least one piece; so
    the empty string is malformed, and so is any string that ends in a
    comma. *)
Theorem parse_accepts (s : string) :
  ((exists m, parse s = inl m) <->
   Forall (fun p => count Colon p = 1) (strings_Split Comma s)) /\
  (forall err, parse s = inr err -> err = errMalformed s) /\
  Nat.ltb (List.length (strings_Split Comma s)) 1 = false /\
  parse EmptyString = inr (errMalformed EmptyString) /\
  parse (s ++ String Comma EmptyString) =
    inr (errMalformed (s ++ String Comma EmptyString)).
Proof.
  split; [|split; [|split; [|split]]].
  - rewrite parse_unfold. apply parse_pairs_ok.
  - rewrite parse_unfold. apply parse_pairs_error.
  - now rewrite Split_length.
  - reflexivity.
  - apply parse_error_or_ok. intros H.
    destruct (Split_trailing Comma s) as [l [_ Hs]]. rewrite Hs in H.
    apply Forall_app in H. destruct H as [_ H].
    inversion H as [|? ? H1 _]; subst. discriminate.
Qed.

Lemma render_cons (kv : string * string) (pairs : list (string * string)) :
  pairs <> [] ->
  render (kv :: pairs) = render_pair kv ++ String Comma (render pairs).
Proof. destruct pairs; [contradiction|reflexivity]. Qed.

Lemma render_pair_no_comma (kv : string * string) :
  plain_pair kv -> count Comma (render_pair kv) = 0.
Proof.
  intros [[Hk _] [Hv _]]. unfold render_pair. rewrite count_app. simpl.
  now rewrite Hk, Hv.
Qed.

Lemma Split_render_pair (kv : string * string) :
  plain_pair kv -> strings_Split Colon (render_pair kv) = [fst kv; snd kv].
Proof.
  intros [[_ Hk] [_ Hv]]. unfold render_pair.
  rewrite (Split_app Colon _ _ Hk). now rewrite (Split_plain Colon _ Hv).
Qed.

Lemma Split_render (pairs : list (string * string)) :
  pairs <> [] ->
  Forall plain_pair pairs ->
  strings_Split Comma (render pairs) = map render_pair pairs.
Proof.
  induction pairs as [|kv pairs IH]; [contradiction|].
  intros _ Hall. inversion Hall as [|? ? Hkv Hrest]; subst.
  destruct pairs as [|kv' pairs].
  - simpl. now rewrite (Split_plain Comma _ (render_pair_no_comma kv Hkv)).
  - rewrite render_cons by discriminate.
    rewrite (Split_app Comma _ _ (render_pair_no_comma kv Hkv)).
    rewrite IH; [reflexivity|discriminate|exact Hrest].
Qed.

Lemma parse_pairs_rendered (s : string) (pairs : list (string * string)) :
  Forall plain_pair pairs ->
  forall m,
    parse_pairs s (map render_pair pairs) m =
      inl (fold_left (fun m kv => map_set (fst kv) (snd kv) m) pairs m).
Proof.
  induction 1 as [|kv pairs Hkv _ IH]; intros m; simpl; [reflexivity|].
  rewrite (Split_render_pair kv Hkv). apply IH.
Qed.

Lemma fold_set_other (k : string) (pairs : list (string * string)) :
  ~ In k (map fst pairs) ->
  forall m,
    map_get k (fold_left (fun m kv => map_set (fst kv) (snd kv) m) pairs m) =
      map_get k m.
Proof.
  induction pairs as [|kv pairs IH]; intros Hn m; simpl; [reflexivity|].
  simpl in Hn. rewrite IH by tauto.
  apply map_get_set_ne. intros ->. tauto.
Qed.

Lemma fold_set_last (k v : string) (ps1 ps2 : list (string * string)) :
  ~ In k (map fst ps2) ->
  forall m,
    map_get k (fold_left (fun m kv => map_set (fst kv) (snd kv) m)
                 (ps1 ++ (k, v) :: ps2) m) = Some v.
Proof.
  intros Hn m. rewrite fold_left_app. simpl.
  rewrite (fold_set_other k ps2 Hn). apply map_get_set_eq.
Qed.

(** X17.  Writing pairs out and parsing them back: for a non-empty list of
    pairs whose keys and values contain neither comma nor colon, [parse]
    of the rendered string succeeds with the map that assigning the pairs
    in order builds.  In it a key that occurs in no pair is absent, and a
    key that occurs several times holds the value of its last pair. *)
Theorem parse_render (pairs : list (string * string)) :
  pairs <> [] ->
  Forall plain_pair pairs ->
  parse (render pairs) = inl (from_pairs pairs) /\
  (forall k, ~ In k (map fst pairs) -> map_get k (from_pairs pairs) = None) /\
  (forall ps1 k v ps2,
     pairs = (ps1 ++ (k, v) :: ps2)%list ->
     ~ In k (map fst ps2) ->
     map_get k (from_pairs pairs) = Some v).
Proof.
  intros Hne Hall. split; [|split].
  - rewrite parse_unfold, (Split_render pairs Hne Hall).
    apply (parse_pairs_rendered _ pairs Hall).
  - intros k Hk. unfold from_pairs. now rewrite fold_set_other.
  - intros ps1 k v ps2 -> Hk. unfold from_pairs. now apply fold_set_last.
Qed.

Section FlagsFacts.
Variable float64 : Type.
Variable ParseBool : string -> bool + string.
Variable Atoi : string -> Z + string.
Variable ParseFloat : string -> float64 + string.
Variable all : list (Flag float64).

Local Abbreviation coerce_ := (coerce float64 ParseBool Atoi ParseFloat).
Local Abbreviation loop_ := (Flags_loop float64 ParseBool Atoi ParseFloat).
Local Abbreviation Flags_ := (Flags float64 ParseBool Atoi ParseFloat all).
Local Abbreviation rejects_ := (rejects float64 ParseBool Atoi ParseFloat).
Local Abbreviation effective_ := (effective float64 all).

Lemma coerce_fails (s : string) (flag : Flag float64) :
  (exists err, coerce_ s flag = inr err) <-> rejects_ s flag.
Proof.
  unfold coerce, rejects.
  destruct (kind flag).
  - destruct (ParseBool s) as [b|c]; split;
      [intros [e H]; discriminate|intros [c H]; discriminate|eauto|eauto].
  - destruct (Atoi s) as [b|c]; split;
      [intros [e H]; discriminate|intros [c H]; discriminate|eauto|eauto].
  - destruct (ParseFloat s) as [b|c]; split;
      [intros [e H]; discriminate|intros [c H]; discriminate|eauto|eauto].
  - split; [intros [e H]; discriminate|contradiction].
Qed.

Lemma coerce_error (s : string) (flag : Flag float64) (err : error) :
  coerce_ s flag = inr err ->
  exists cause, err = errCoerce s (kind flag) cause /\
                kind flag <> OtherFlag.
Proof.
  unfold coerce.
  destruct (kind flag).
  - destruct (ParseBool s) as [b|c]; [discriminate|].
    intros [= <-]. exists c. split; [reflexivity|discriminate].
  - destruct (Atoi s) as [b|c]; [discriminate|].
    intros [= <-]. exists c. split; [reflexivity|discriminate].
  - destruct (ParseFloat s) as [b|c]; [discriminate|].
    intros [= <-]. exists c. split; [reflexivity|discriminate].
  - discriminate.
Qed.

Lemma Flags_unfold (f : Flagger) (requested : list (Flag float64)) :
  Flags_ f requested = loop_ f (effective_ requested) [].
Proof. unfold Flags, effective. now destruct requested. Qed.

Lemma loop_fails (f : Flagger) (requested : list (Flag float64)) :
  forall m,
    (exists err, loop_ f requested m = inr err) <->
    Exists (fun flag => exists s, map_get (Key flag) (flags f) = Some s /\
                                  rejects_ s flag) requested.
Proof.
  induction requested as [|flag rest IH]; intros m; simpl.
  - split; [intros [e H]; discriminate|intros H; inversion H].
  - destruct (map_get (Key flag) (flags f)) as [s|] eqn:Hg.
    + destruct (coerce_ s flag) as [v|e] eqn:Hc.
      * rewrite IH. split; [now right|].
        intros H. inversion H as [? ? [s' [Hs Hr]]|]; subst; [|assumption].
        rewrite Hg in Hs. injection Hs as <-. apply coerce_fails in Hr.
        destruct Hr as [e Hr]. congruence.
      * split; [|eauto]. intros _. left. exists s. split; [exact Hg|].
        apply coerce_fails. eauto.
    + rewrite IH. split; [now right|].
      intros H. inversion H as [? ? [s' [Hs Hr]]|]; subst; [|assumption].
      congruence.
Qed.

Lemma loop_error (f : Flagger) (requested : list (Flag float64)) :
  forall m err,
    loop_ f requested m = inr err ->
    exists s k cause, err = errCoerce s k cause /\ k <> OtherFlag.
Proof.
  induction requested as [|flag rest IH]; intros m err; simpl; [discriminate|].
  destruct (map_get (Key flag) (flags f)) as [s|]; [|apply IH].
  destruct (coerce_ s flag) as [v|e] eqn:Hc; [apply IH|].
  intros [= <-]. destruct (coerce_error _ _ _ Hc) as [c [-> Hk]]. eauto 6.
Qed.

Lemma loop_other (f : Flagger) (k : string) (requested : list (Flag float64)) :
  ~ In k (map Key requested) ->
  forall m m', loop_ f requested m = inl m' -> map_get k m' = map_get k m.
Proof.
  induction requested as [|flag rest IH]; intros Hn m m'; simpl.
  - now intros [= <-].
  - simpl in Hn.
    assert (Hne : k <> Key flag) by (intros ->; tauto).
    assert (Hrest : ~ In k (map Key rest)) by tauto.
    destruct (map_get (Key flag) (flags f)) as [s|].
    + destruct (coerce_ s flag) as [v|e]; [|discriminate].
      intros H. rewrite (IH Hrest _ _ H). now apply map_get_set_ne.
    + intros H. rewrite (IH Hrest _ _ H). now apply map_get_set_ne.
Qed.

Lemma loop_last (f : Flagger) (r1 : list (Flag float64)) (flag : Flag float64)
  (r2 : list (Flag float64)) :
  ~ In (Key flag) (map Key r2) ->
  forall m m',
    loop_ f (r1 ++ flag :: r2) m = inl m' ->
    match map_get (Key flag) (flags f) with
    | None => map_get (Key flag) m' = Some (Default flag)
    | Some s => exists v, coerce_ s flag = inl v /\ map_get (Key flag) m' = Some v
    end.
Proof.
  intros Hn. induction r1 as [|fl r1 IH]; intros m m'; simpl.
  - destruct (map_get (Key flag) (flags f)) as [s|].
    + destruct (coerce_ s flag) as [v|e]; [|discriminate].
      intros H. exists v. split; [reflexivity|].
      rewrite (loop_other f _ r2 Hn _ _ H). apply map_get_set_eq.
    + intros H. rewrite (loop_other f _ r2 Hn _ _ H). apply map_get_set_eq.
  - destruct (map_get (Key fl) (flags f)) as [s|].
    + destruct (coerce_ s fl) as [v|e]; [|discriminate]. apply IH.
    + apply IH.
Qed.

(** X18.  What [Flags] returns when it succeeds: a map with an entry for
    each flag the call is about (the requested ones, or all flags when none
    is requested) and for nothing else.  A flag without an override holds
    its default, an overridden flag the value its override coerces to;
    overrides under keys the call is not about are ignored, and of two
    flags with one key the later decides. *)
Theorem Flags_result (f : Flagger) (requested : list (Flag float64))
  (m : gomap (value float64)) :
  Flags_ f requested = inl m ->
  (forall k, ~ In k (map Key (effective_ requested)) -> map_get k m = None) /\
  (forall r1 flag r2,
     effective_ requested = (r1 ++ flag :: r2)%list ->
     ~ In (Key flag) (map Key r2) ->
     match map_get (Key flag) (flags f) with
     | None => map_get (Key flag) m = Some (Default flag)
     | Some s => exists v, coerce_ s flag = inl v /\ map_get (Key flag) m = Some v
     end).
Proof.
  rewrite Flags_unfold. intros H. split.
  - intros k Hk. now rewrite (loop_other f k _ Hk _ _ H).
  - intros r1 flag r2 He Hn. rewrite He in H.
    exact (loop_last f r1 flag r2 Hn _ _ H).
Qed.

(** X19.  [Flags] does return an error: exactly when one of the flags the
    call is about is overridden by a string that the strconv parser for the
    flag's type rejects.  The error is the one [coerce] builds, and it never
    arises from a flag that is neither boolean, integer nor float, whose
    override is taken as the string it is. *)
Theorem Flags_fails (f : Flagger) (requested : list (Flag float64)) :
  ((exists err, Flags_ f requested = inr err) <->
   Exists (fun flag => exists s, map_get (Key flag) (flags f) = Some s /\
                                 rejects_ s flag) (effective_ requested)) /\
  (forall err, Flags_ f requested = inr err ->
     exists s k cause, err = errCoerce s k cause /\ k <> OtherFlag) /\
  (forall s flag, kind flag = OtherFlag -> coerce_ s flag = inl (VString s)).
Proof.
  rewrite Flags_unfold. split; [apply loop_fails|].
  split; [apply loop_error|].
  intros s flag Hk. unfold coerce. now rewrite Hk.
Qed.

(** X22.  From the configuration string to the flag values: for a
    non-empty list of pairs without commas and colons, [Make] of the
    rendered string succeeds, and whenever [Flags] of that flagger
    succeeds, a flag the call is about holds its default if no pair names
    its key, and otherwise the value that the last pair naming its key
    coerces to. *)
Theorem Make_then_Flags (pairs : list (string * string))
  (requested : list (Flag float64)) :
  pairs <> [] ->
  Forall plain_pair pairs ->
  exists f,
    Make (render pairs) = inl f /\
    forall m r1 flag r2,
      Flags_ f requested = inl m ->
      effective_ requested = (r1 ++ flag :: r2)%list ->
      ~ In (Key flag) (map Key r2) ->
      (~ In (Key flag) (map fst pairs) ->
       map_get (Key flag) m = Some (Default flag)) /\
      (forall ps1 v ps2,
         pairs = (ps1 ++ (Key flag, v) :: ps2)%list ->
         ~ In (Key flag) (map fst ps2) ->
         exists iface, coerce_ v flag = inl iface /\
                       map_get (Key flag) m = Some iface).
Proof.
  intros Hne Hall. exists (mkFlagger (from_pairs pairs)). split.
  - unfold Make. rewrite parse_unfold, (Split_render pairs Hne Hall).
    now rewrite (parse_pairs_rendered _ pairs Hall).
  - intros m r1 flag r2 Hf He Hn.
    rewrite Flags_unfold, He in Hf.
    pose proof (loop_last _ r1 flag r2 Hn _ _ Hf) as H. simpl in H.
    split.
    + intros Hk. unfold from_pairs in H.
      now rewrite (fold_set_other _ pairs Hk) in H.
    + intros ps1 v ps2 -> Hk. unfold from_pairs in H.
      now rewrite (fold_set_last _ v ps1 ps2 Hk) in H.
Qed.

End FlagsFacts.

End OverrideFacts.

(** * The further properties at concrete inputs *)

Section MoreExamples.
#[local] Existing Instance Sample.sampleEnv.
Import Sample Cases.

Lemma initializeAuths_outcome_witness :
  initializeAuths storeA = None /\
  initializeAuths storeNoIndex =
    Some (UnexpectedAuthIndexError (ExternalError "bucket not found")).
Proof.
  split.
  - apply (proj1 (initializeAuths_outcome storeA)). split; reflexivity.
  - apply (proj2 (proj2 (initializeAuths_outcome storeNoIndex))); reflexivity.
Defined.

Lemma codec_status_never_empty_witness :
  decodeAuthorization "doc-L" (Some preallocated) = Ok (with_Status recL Active) /\
  Status (with_Status recL Active) <> "".
Proof.
  split; [reflexivity|].
  exact (proj1 codec_status_never_empty "doc-L" (Some preallocated)
           (with_Status recL Active) eq_refl).
Defined.

Lemma uniqueAuthToken_hides_conflict_witness :
  unique storeA authIndex (authIndexKey (Token recA2)) = Some NotUniqueError /\
  uniqueAuthToken storeA recA2 = Some ErrUnableToCreateToken.
Proof.
  split; [reflexivity|].
  apply (proj2 (proj2 (uniqueAuthToken_hides_conflict storeA recA2))).
  reflexivity.
Defined.

Lemma GetAuthorizationByToken_outcomes_witness :
  GetAuthorizationByToken storeA "b" =
    Err (InfluxdbMsg ENotFound "authorization not found").
Proof.
  apply (proj1 (GetAuthorizationByToken_outcomes storeA "b")); reflexivity.
Defined.

Lemma GetAuthorizationByToken_store_failure_witness :
  GetAuthorizationByToken storeFaulty "a" =
    Err (InfluxdbWrap (Some EInvalid)
           (ExternalError "id must have a length of 16 bytes")).
Proof.
  exact (GetAuthorizationByToken_store_failure storeFaulty "a" "i/o error"
           eq_refl eq_refl).
Defined.

Lemma CreateAuthorization_stores_witness :
  exists tx',
    CreateAuthorization storeA recB = (None, tx', recB) /\
    lookup "b" (index tx') = Some keyB /\
    lookup keyB (auths tx') = Some "doc-B" /\
    (forall t, t <> "b" -> lookup t (index tx') = lookup t (index storeA)) /\
    (forall k', k' <> keyB -> lookup k' (auths tx') = lookup k' (auths storeA)) /\
    faults tx' = faults storeA /\ usesHints tx' = usesHints storeA.
Proof.
  apply (CreateAuthorization_stores storeA recB recB "doc-B" keyB);
    try reflexivity.
  - left. split; reflexivity.
  - left. reflexivity.
Defined.

Lemma CreateAuthorization_failure_leaves_witness :
  CreateAuthorization storePutFails recA =
    (Some (InfluxdbWrap None (ExternalError "disk full")),
     mkTx [] [("a", keyA)] (faults storePutFails) true, recA) /\
  auths (mkTx [] [("a", keyA)] (faults storePutFails) true) = auths storePutFails.
Proof.
  split; [reflexivity|].
  exact (proj1 (CreateAuthorization_failure_leaves storePutFails
                  (mkTx [] [("a", keyA)] (faults storePutFails) true)
                  recA recA _ eq_refl)).
Defined.

Lemma CreateAuthorization_rejected_keeps_generated_id_witness :
  CreateAuthorization empty recUnidentified =
    (Some (InfluxdbWrap (Some EInvalid)
             (InfluxdbMsg EInvalid "unknown authorization status")),
     empty, with_ID recUnidentified 100%N).
Proof.
  apply (CreateAuthorization_rejected_keeps_generated_id empty recUnidentified 100%N);
    try reflexivity.
  intros [H|[H|H]]; discriminate.
Defined.

Lemma CreateAuthorization_twice_witness :
  CreateAuthorization empty recA = (None, storeA, recA) /\
  CreateAuthorization storeA recA2 = (Some ErrUnableToCreateToken, storeA, recA2).
Proof.
  split; [reflexivity|].
  apply (CreateAuthorization_twice empty storeA recA recA recA2 recA2
           "doc-A2" "0000000000000005"); try reflexivity.
  - discriminate.
  - left. split; reflexivity.
  - left. reflexivity.
Defined.

Lemma ListAuthorizations_hint_transparent_witness :
  ListAuthorizations (with_hints storeAB true)
    (AuthorizationFilter.mk None None (Some 10%N) (Some 200%N)) = Ok [recB] /\
  ListAuthorizations (with_hints storeAB false)
    (AuthorizationFilter.mk None None (Some 10%N) (Some 200%N)) = Ok [recB].
Proof.
  pose (f := AuthorizationFilter.mk None None (Some 10%N) (Some 200%N)).
  assert (H : forall h, ListAuthorizations (with_hints storeAB h) f =
                        Ok (filter (filterAuthorizationsFn f) [recA; recB])).
  { apply (ListAuthorizations_hint_transparent storeAB f [recA; recB]);
      try reflexivity.
    - constructor; [split; [reflexivity|]|].
      + apply (SampleFacts.agrees counterGen). reflexivity.
      + constructor; [split; [reflexivity|]|constructor].
        apply (SampleFacts.agrees counterGen). reflexivity.
    - intros [_ [_ Hu]]. discriminate. }
  split; apply H.
Defined.

Lemma ListAuthorizations_corrupt_entry_witness :
  ListAuthorizations storeCorrupt noFilter =
    Err (ExternalError "invalid character").
Proof.
  apply (ListAuthorizations_corrupt_entry storeCorrupt noFilter
           [(keyA, "doc-A")] [recA] keyB "not a document" []);
    try reflexivity.
  - now left.
  - constructor; [reflexivity|constructor].
Defined.

Lemma ListAuthorizations_edges_witness :
  ListAuthorizations storeNoCursor noFilter = Err (ExternalError "cursor closed") /\
  ListAuthorizations empty noFilter = Ok [].
Proof.
  split.
  - apply (proj1 (proj2 (ListAuthorizations_edges storeNoCursor noFilter)));
      reflexivity.
  - apply (proj2 (proj2 (ListAuthorizations_edges empty noFilter)));
      reflexivity.
Defined.


Lemma UpdateAuthorization_loaded_effect_witness :
  UpdateAuthorization_loaded storeA recA
    (AuthorizationUpdate.mk (Some Inactive) None) =
    (Ok (SetUpdatedAt (with_Status recA Inactive) 1000%Z), storeA) /\
  exists k v,
    ID_Encode (ID recA) = Ok k /\
    json_Marshal (normalized recA) = Ok v /\
    lookup k (auths storeA) = Some v /\
    lookup (Token recA) (index storeA) = Some k.
Proof.
  split; [reflexivity|].
  exact (proj2 (proj2 (proj2
           (UpdateAuthorization_loaded_effect storeA storeA recA
              (SetUpdatedAt (with_Status recA Inactive) 1000%Z)
              (AuthorizationUpdate.mk (Some Inactive) None) eq_refl)))).
Defined.

Lemma DeleteAuthorization_loaded_effect_witness :
  DeleteAuthorization_loaded storeAB 1%N recA =
    (None, mkTx [(keyB, "doc-B")] [("b", keyB)] noFaults true) /\
  lookup "b" (index (mkTx [(keyB, "doc-B")] [("b", keyB)] noFaults true)) =
    lookup "b" (index storeAB).
Proof.
  assert (H : DeleteAuthorization_loaded storeAB 1%N recA =
              (None, mkTx [(keyB, "doc-B")] [("b", keyB)] noFaults true))
    by reflexivity.
  split; [exact H|].
  destruct (DeleteAuthorization_loaded_effect storeAB _ 1%N recA None H)
    as [k [_ [_ [_ [Hi _]]]]].
  apply Hi. discriminate.
Defined.

Lemma GetAuthorizationByID_errors_witness :
  GetAuthorizationByID storeGetFails 1%N =
    Err (ErrInternalServiceError (ExternalError "read error")) /\
  GetAuthorizationByID storeA 0%N = Err ErrInvalidAuthID.
Proof.
  split.
  - apply (proj1 (proj2 (proj2 (GetAuthorizationByID_errors storeGetFails 1%N)))
             keyA "read error"); reflexivity.
  - apply (proj1 (GetAuthorizationByID_errors storeA 0%N)
             (ExternalError "invalid ID")). reflexivity.
Defined.

End MoreExamples.

Module OverrideExamples.
Import Override Cases.

Lemma parse_accepts_witness :
  exists m, parse "newLabels:true,maxTasks:25" = inl m.
Proof.
  apply (proj1 (OverrideFacts.parse_accepts "newLabels:true,maxTasks:25")).
  repeat constructor.
Defined.

Lemma parse_render_witness :
  parse "a:1,b:2,a:3" = inl (from_pairs [("a", "1"); ("b", "2"); ("a", "3")]) /\
  map_get "a" (from_pairs [("a", "1"); ("b", "2"); ("a", "3")]) = Some "3".
Proof.
  assert (Hp : Forall plain_pair [("a", "1"); ("b", "2"); ("a", "3")]).
  { repeat constructor. }
  destruct (OverrideFacts.parse_render [("a", "1"); ("b", "2"); ("a", "3")]
              ltac:(discriminate) Hp) as [H1 [_ H3]].
  split; [exact H1|].
  apply (H3 [("a", "1"); ("b", "2")] "a" "3" []); [reflexivity|].
  intros [].
Defined.

Lemma Flags_result_witness :
  sampleFlags (mkFlagger [("maxTasks", "25"); ("unknown", "x")]) [] =
    inl [("newLabels", VBool false); ("maxTasks", VInt 25);
         ("backend", VString "bolt")] /\
  map_get "unknown"
    [("newLabels", @VBool Z false); ("maxTasks", VInt 25);
     ("backend", VString "bolt")] = None.
Proof.
  split; [reflexivity|].
  apply (proj1 (OverrideFacts.Flags_result Z ParseBool Atoi ParseFloat allFlags
                  (mkFlagger [("maxTasks", "25"); ("unknown", "x")]) []
                  _ eq_refl)).
  simpl. intros [H|[H|[H|[]]]]; discriminate.
Defined.

Lemma Flags_fails_witness :
  exists err,
    sampleFlags (mkFlagger [("maxTasks", "many")]) [flagString; flagInt] = inr err.
Proof.
  apply (proj1 (OverrideFacts.Flags_fails Z ParseBool Atoi ParseFloat allFlags
                  (mkFlagger [("maxTasks", "many")]) [flagString; flagInt])).
  right. left. exists "many". split; [reflexivity|].
  exists "invalid syntax". reflexivity.
Defined.

Lemma Make_then_Flags_witness :
  exists f,
    Make "maxTasks:7,maxTasks:25" = inl f /\
    sampleFlags f [flagInt; flagBool] =
      inl [("maxTasks", VInt 25); ("newLabels", VBool false)].
Proof.
  destruct (OverrideFacts.Make_then_Flags Z ParseBool Atoi ParseFloat allFlags
              [("maxTasks", "7"); ("maxTasks", "25")] [flagInt; flagBool]
              ltac:(discriminate) ltac:(repeat constructor)) as [f [Hm _]].
  exists f. split; [exact Hm|].
  vm_compute in Hm. injection Hm as <-. reflexivity.
Defined.

End OverrideExamples.
